(** * walk: INI-file settings store and tooltip widget

    A shallow embedding of [IniFileSettings] (Get, Put, Load, Save and the
    file helpers they use) and of [ToolTip.AddWidget] / [ToolTip.RemoveWidget],
    with the properties of the key/value store stated and proved over it. *)

From Stdlib Require Import ZArith Lia Ascii String.
From stdpp Require Import gmap strings list fin_maps.

Local Open Scope string_scope.
Local Open Scope list_scope.
Local Open Scope Z_scope.

(** ** Go strings

    A Go [string] is an immutable sequence of bytes; it is embedded as a list
    of 8-bit characters.  String literals are read through the coercion below,
    which performs no escape processing, so control characters are named. *)

Abbreviation gostring := (list ascii).

Coercion list_ascii_of_string : string >-> list.

Definition CR : ascii := "013"%char.
Definition LF : ascii := "010"%char.
Definition EQ : ascii := "="%char.

Module strings.

(** [strings.IndexAny(s, chars)]: index of the first byte of [s] that is one
    of [chars], or -1.  The character sets used by the program are ASCII, for
    which the byte-wise search agrees with the search by code point. *)
Fixpoint IndexAny (s chars : gostring) : Z :=
  match s with
  | [] => -1
  | c :: s' =>
      if bool_decide (c ∈ chars) then 0
      else let i := IndexAny s' chars in
           if i =? -1 then -1 else i + 1
  end.

(** [strings.Index(s, substr)]: index of the first occurrence of [substr]
    in [s], or -1. *)
Fixpoint Index (s substr : gostring) : Z :=
  match s with
  | [] => if bool_decide (substr = []) then 0 else -1
  | _ :: s' =>
      if bool_decide (substr `prefix_of` s) then 0
      else let i := Index s' substr in
           if i =? -1 then -1 else i + 1
  end.

(** The UTF-8 encodings of the code points for which [unicode.IsSpace]
    holds: tab, LF, VT, FF, CR, space, U+0085, U+00A0, U+1680,
    U+2000..U+200A, U+2028, U+2029, U+202F, U+205F and U+3000. *)
Definition spaceRunes : list gostring :=
  [ ["009"]; ["010"]; ["011"]; ["012"]; ["013"]; [" "];
    ["194"; "133"]; ["194"; "160"];
    ["225"; "154"; "128"];
    ["226"; "128"; "128"]; ["226"; "128"; "129"]; ["226"; "128"; "130"];
    ["226"; "128"; "131"]; ["226"; "128"; "132"]; ["226"; "128"; "133"];
    ["226"; "128"; "134"]; ["226"; "128"; "135"]; ["226"; "128"; "136"];
    ["226"; "128"; "137"]; ["226"; "128"; "138"];
    ["226"; "128"; "168"]; ["226"; "128"; "169"]; ["226"; "128"; "175"];
    ["226"; "129"; "159"];
    ["227"; "128"; "128"] ]%char.

(** The white-space code point [s] starts with, respectively ends with. *)
Definition leadingSpace (s : gostring) : option gostring :=
  find (λ r, bool_decide (r `prefix_of` s)) spaceRunes.

Definition trailingSpace (s : gostring) : option gostring :=
  find (λ r, bool_decide (r `suffix_of` s)) spaceRunes.

(** [strings.TrimSpace(s)]: the slice of [s] left after removing every
    leading and every trailing white-space code point.  At most [length s]
    code points can be removed from either end, which bounds both loops. *)
Fixpoint trimLeft (n : nat) (s : gostring) : gostring :=
  match n with
  | O => s
  | S n =>
      match leadingSpace s with
      | Some r => trimLeft n (drop (length r) s)
      | None => s
      end
  end.

Fixpoint trimRight (n : nat) (s : gostring) : gostring :=
  match n with
  | O => s
  | S n =>
      match trailingSpace s with
      | Some r => trimRight n (take (length s - length r) s)
      | None => s
      end
  end.

Definition TrimSpace (s : gostring) : gostring :=
  let s := trimLeft (length s) s in
  trimRight (length s) s.

End strings.

(** ** Errors

    [os.Error] values.  [newError] and [wrapError] are the two constructors of
    the toolkit's own error type; [Errno] stands for an error reported by the
    operating system and [EOF] for [os.EOF]. *)

Inductive Error : Type :=
  | EOF
  | Errno (code : Z)
  | newError (message : gostring)
  | wrapError (inner : Error).

Global Instance Error_eq_dec : EqDecision Error.
Proof. solve_decision. Defined.

Definition ENOENT : Error := Errno 2.
Definition EACCES : Error := Errno 13.
Definition ENOSPC : Error := Errno 28.

(** The error kinds of the specification, as sets of [os.Error] values. *)
Definition InvalidFormat : Error :=
  newError "either key or value contains at least one of the invalid characters '=\r\n'".

Definition ParseError : Error :=
  newError "bad line format: missing '='".

Definition IOError (e : Error) : bool :=
  match e with
  | wrapError _ | Errno _ => true
  | _ => false
  end.

(** ** The store *)

Record IniFileSettings : Type := mkIniFileSettings {
  data : gmap gostring gostring
}.

Definition NewIniFileSettings : IniFileSettings :=
  {| data := ∅ |}.

Definition Get (ifs : IniFileSettings) (key : gostring) : gostring * bool :=
  match data ifs !! key with
  | Some val => (val, true)
  | None => ([], false)
  end.

Definition Put (ifs : IniFileSettings) (key value : gostring)
  : IniFileSettings * option Error :=
  if (strings.IndexAny key [EQ; CR; LF] >? -1)
     || (strings.IndexAny value [CR; LF] >? -1)
  then (ifs, Some InvalidFormat)
  else ({| data := <[key := value]> (data ifs) |}, None).


(** ** The environment

    What the program sees of the operating system: the application data
    directory and the application identity (the results of [AppDataPath()],
    [appSingleton.OrganizationName()] and [appSingleton.ProductName()]), the
    path functions of package [path], the regular files by path, and the
    failures the system calls may report.  A read fault [(n, e)] makes a
    stream deliver its first [n] bytes and then fail with [e]; a write fault
    [(n, e)] makes a file refuse to grow beyond [n] bytes, failing with [e]. *)

Record World : Type := mkWorld {
  w_AppDataPath : gostring * option Error;
  w_OrganizationName : gostring;
  w_ProductName : gostring;
  w_Join : list gostring → gostring;
  w_Split : gostring → gostring * gostring;
  w_files : gmap gostring gostring;
  w_statFault : option Error;
  w_mkdirFault : option Error;
  w_openFault : option Error;
  w_readFault : option (nat * Error);
  w_writeFault : option (nat * Error)
}.

Definition setFiles (w : World) (files : gmap gostring gostring) : World :=
  {| w_AppDataPath := w_AppDataPath w;
     w_OrganizationName := w_OrganizationName w;
     w_ProductName := w_ProductName w;
     w_Join := w_Join w;
     w_Split := w_Split w;
     w_files := files;
     w_statFault := w_statFault w;
     w_mkdirFault := w_mkdirFault w;
     w_openFault := w_openFault w;
     w_readFault := w_readFault w;
     w_writeFault := w_writeFault w |}.

Module os.

Definition O_RDONLY : Z := 0.
Definition O_WRONLY : Z := 1.
Definition O_CREATE : Z := 64.
Definition O_TRUNC : Z := 512.

Record File : Type := mkFile { f_name : gostring; f_flag : Z }.

(** [os.Stat(name)], of which the program uses the error only. *)
Definition Stat (w : World) (name : gostring) : option Error :=
  match w_statFault w with
  | Some e => Some e
  | None =>
      match w_files w !! name with
      | Some _ => None
      | None => Some ENOENT
      end
  end.

Definition MkdirAll (w : World) (path : gostring) (perm : Z) : option Error :=
  w_mkdirFault w.

(** [os.OpenFile(name, flag, perm)]: [O_CREATE] creates a missing file and
    [O_TRUNC] empties an existing one. *)
Definition OpenFile (w : World) (name : gostring) (flag perm : Z)
  : World * (File + Error) :=
  match w_openFault w with
  | Some e => (w, inr e)
  | None =>
      match w_files w !! name with
      | Some _ =>
          if Z.testbit flag 9
          then (setFiles w (<[name := []]> (w_files w)), inl (mkFile name flag))
          else (w, inl (mkFile name flag))
      | None =>
          if Z.testbit flag 6
          then (setFiles w (<[name := []]> (w_files w)), inl (mkFile name flag))
          else (w, inr ENOENT)
      end
  end.

(** [file.Write(p)] at offset [off]: the number of bytes written and the
    error, if any. *)
Definition Write (w : World) (file : File) (off : nat) (p : gostring)
  : World * nat * option Error :=
  let content := default [] (w_files w !! f_name file) in
  let store (q : gostring) :=
    setFiles w (<[f_name file :=
                    take off content ++ q ++ drop (off + length q) content]>
                  (w_files w)) in
  match w_writeFault w with
  | Some (limit, e) =>
      if bool_decide (off + length p ≤ limit)%nat
      then (store p, length p, None)
      else let q := take (limit - off) p in (store q, length q, Some e)
  | None => (store p, length p, None)
  end.

End os.

Module bufio.

Definition defaultBufSize : nat := 4096.

(** A [bufio.Reader] over a file: the bytes not yet consumed and the error
    the underlying read reports once they are ([os.EOF] at a regular end of
    file). *)
Record Reader : Type := mkReader { rd_pending : gostring; rd_err : Error }.

Definition NewReader (w : World) (file : os.File) : Reader :=
  let content := default [] (w_files w !! os.f_name file) in
  match w_readFault w with
  | Some (n, e) => mkReader (take n content) e
  | None => mkReader content EOF
  end.

(** The line end is LF or CR LF: a CR before the line feed is dropped. *)
Definition dropCR (line : gostring) : gostring :=
  if bool_decide (last line = Some CR)
  then take (length line - 1) line else line.

(** [reader.ReadLine()].  A line feed among the next [defaultBufSize] bytes
    ends the line, which is returned without its line end (LF or CR LF).
    Without one, a full buffer is returned as a prefix of the line
    ([isPrefix] set; a final CR is left for the next call), and the rest of
    the stream is returned as the last line; at the end of the stream the
    call reports the stream's error and no line. *)
Definition ReadLine (b : Reader) : gostring * bool * option Error * Reader :=
  let window := take defaultBufSize (rd_pending b) in
  match list_find (λ c, c = LF) window with
  | Some (i, _) =>
      let line := dropCR (take i window) in
      (line, false, None, mkReader (drop (S i) (rd_pending b)) (rd_err b))
  | None =>
      if bool_decide (defaultBufSize ≤ length (rd_pending b))%nat then
        let n := if bool_decide (last window = Some CR)
                 then (defaultBufSize - 1)%nat else defaultBufSize in
        (take n window, true, None,
         mkReader (drop n (rd_pending b)) (rd_err b))
      else
        match rd_pending b with
        | [] => ([], false, Some (rd_err b), b)
        | _ => (rd_pending b, false, None, mkReader [] (rd_err b))
        end
  end.

(** A [bufio.Writer] over a file: the buffered bytes, the file offset of the
    next flush and the sticky error. *)
Record Writer : Type := mkWriter {
  wr_file : os.File;
  wr_off : nat;
  wr_buf : gostring;
  wr_err : option Error
}.

Definition NewWriter (file : os.File) : Writer :=
  mkWriter file 0 [] None.

Definition Available (b : Writer) : nat :=
  (defaultBufSize - length (wr_buf b))%nat.

Definition Flush (w : World) (b : Writer) : World * Writer * option Error :=
  match wr_err b with
  | Some e => (w, b, Some e)
  | None =>
      match wr_buf b with
      | [] => (w, b, None)
      | _ =>
          let '(w, n, err) := os.Write w (wr_file b) (wr_off b) (wr_buf b) in
          match err with
          | Some e =>
              (w, mkWriter (wr_file b) (wr_off b + n) (drop n (wr_buf b)) (Some e),
               Some e)
          | None =>
              (w, mkWriter (wr_file b) (wr_off b + n) [] None, None)
          end
      end
  end.

(** The copy-and-flush loop of [WriteString]: while the string does not fit
    the buffer and no error is pending, fill the buffer and flush it. *)
Fixpoint writeLoop (fuel : nat) (w : World) (b : Writer) (s : gostring)
  : option (World * Writer * gostring) :=
  match fuel with
  | O => None
  | S fuel =>
      if bool_decide (Available b < length s)%nat && bool_decide (wr_err b = None)
      then
        let n := Available b in
        let b := mkWriter (wr_file b) (wr_off b) (wr_buf b ++ take n s) (wr_err b) in
        let '(w, b, _) := Flush w b in
        writeLoop fuel w b (drop n s)
      else Some (w, b, s)
  end.

(** [writer.WriteString(s)], of which the program uses the error only. *)
Definition WriteString (w : World) (b : Writer) (s : gostring)
  : option (World * Writer * option Error) :=
  match writeLoop (length s + 2) w b s with
  | None => None
  | Some (w, b, s) =>
      match wr_err b with
      | Some e => Some (w, b, Some e)
      | None =>
          Some (w, mkWriter (wr_file b) (wr_off b) (wr_buf b ++ s) None, None)
      end
  end.

End bufio.

(** ** File access of the store *)

Definition filePath (w : World) : gostring * option Error :=
  match w_AppDataPath w with
  | (_, Some err) => ([], Some err)
  | (appDataPath, None) =>
      (w_Join w [appDataPath; w_OrganizationName w; w_ProductName w;
                 "settings.ini" : gostring],
       None)
  end.

Definition fileExists (w : World) : bool * option Error :=
  match filePath w with
  | (_, Some err) => (false, Some err)
  | (filePath, None) =>
      match os.Stat w filePath with
      | Some _ => (false, None)
      | None => (true, None)
      end
  end.

(** [withFile(flags, f)].  The callback works on the environment and on the
    store it has captured; [None] stands for a callback that does not
    return.  The error of [filePath()] is dropped, as in the source, and the
    deferred [file.Close()] has no effect on what is modelled. *)
Definition withFile (w : World) (ifs : IniFileSettings) (flags : Z)
    (f : os.File → World → IniFileSettings →
         option (World * IniFileSettings * option Error))
  : option (World * IniFileSettings * option Error) :=
  let '(filePath, _) := filePath w in
  let '(dirPath, _) := w_Split w filePath in
  match os.MkdirAll w dirPath 420 with
  | Some err => Some (w, ifs, Some (wrapError err))
  | None =>
      match os.OpenFile w filePath flags 420 with
      | (w, inr err) => Some (w, ifs, Some (wrapError err))
      | (w, inl file) => f file w ifs
      end
  end.

(** The inner loop of [Load]: it either leaves with the bytes of one line
    ([break]) or returns from the callback. *)
Inductive lineOutcome : Type :=
  | Break (lineBytes : gostring) (reader : bufio.Reader)
  | Return (err : option Error).

Fixpoint readLineBytes (fuel : nat) (reader : bufio.Reader) (lineBytes : gostring)
  : option lineOutcome :=
  match fuel with
  | O => None
  | S fuel =>
      let '(ln, isPrefix, err, reader) := bufio.ReadLine reader in
      match err with
      | Some err =>
          if bool_decide (err = EOF) then Some (Return None)
          else Some (Return (Some (wrapError err)))
      | None =>
          let lineBytes := lineBytes ++ ln in
          if isPrefix then readLineBytes fuel reader lineBytes
          else Some (Break lineBytes reader)
      end
  end.

(** Lines 116 to 125: one assembled line is split at its first '=' and
    stored, or rejected. *)
Definition storeLine (lineStr : gostring) (ifs : IniFileSettings)
  : IniFileSettings + Error :=
  let assignIndex := strings.Index lineStr [EQ] in
  if assignIndex =? -1 then inr (newError "bad line format: missing '='")
  else
    let key := strings.TrimSpace (take (Z.to_nat assignIndex) lineStr) in
    let val := strings.TrimSpace (drop (Z.to_nat (assignIndex + 1)) lineStr) in
    inl {| data := <[key := val]> (data ifs) |}.

(** The lines the inner loop leaves with, one after the other, until it
    returns: the lines of a stream as [Load] assembles them. *)
Fixpoint linesOf (fuel : nat) (reader : bufio.Reader) : list gostring :=
  match fuel with
  | O => []
  | S fuel =>
      match readLineBytes (S (length (bufio.rd_pending reader))) reader [] with
      | Some (Break lineBytes reader) => lineBytes :: linesOf fuel reader
      | _ => []
      end
  end.

(** The outer loop of [Load]. *)
Fixpoint loadLoop (fuel : nat) (reader : bufio.Reader) (ifs : IniFileSettings)
  : option (IniFileSettings * option Error) :=
  match fuel with
  | O => None
  | S fuel =>
      match readLineBytes (S (length (bufio.rd_pending reader))) reader [] with
      | None => None
      | Some (Return err) => Some (ifs, err)
      | Some (Break lineBytes reader) =>
          match storeLine lineBytes ifs with
          | inr err => Some (ifs, Some err)
          | inl ifs => loadLoop fuel reader ifs
          end
      end
  end.

Definition Load (w : World) (ifs : IniFileSettings)
  : option (World * IniFileSettings * option Error) :=
  match fileExists w with
  | (_, Some err) => Some (w, ifs, Some err)
  | (false, None) => Some (w, ifs, None)
  | (true, None) =>
      withFile w ifs os.O_RDONLY (λ file w ifs,
        let reader := bufio.NewReader w file in
        match loadLoop (S (length (bufio.rd_pending reader))) reader ifs with
        | None => None
        | Some (ifs, err) => Some (w, ifs, err)
        end)
  end.

(** [fmt.Sprintf("%s=%s\n", key, val)]. *)
Definition entryLine (key val : gostring) : gostring :=
  key ++ [EQ] ++ val ++ [LF].

(** The loop of [Save] over the entries in the order [range] delivers them;
    an error is the one the loop returns with. *)
Fixpoint writeEntries (entries : list (gostring * gostring))
    (w : World) (bufWriter : bufio.Writer)
  : option (World * bufio.Writer * option Error) :=
  match entries with
  | [] => Some (w, bufWriter, None)
  | (key, val) :: entries =>
      let line := entryLine key val in
      match bufio.WriteString w bufWriter line with
      | None => None
      | Some (w, bufWriter, Some err) => Some (w, bufWriter, Some (wrapError err))
      | Some (w, bufWriter, None) => writeEntries entries w bufWriter
      end
  end.

(** The iteration order of a Go map is unspecified: [range] may deliver the
    entries in any order. *)
Definition rangeOrder (ifs : IniFileSettings)
    (entries : list (gostring * gostring)) : Prop :=
  entries ≡ₚ map_to_list (data ifs).

(** [Save()], given the order in which [range] delivers the entries. *)
Definition Save (entries : list (gostring * gostring))
    (w : World) (ifs : IniFileSettings)
  : option (World * IniFileSettings * option Error) :=
  withFile w ifs (Z.lor (Z.lor os.O_CREATE os.O_TRUNC) os.O_WRONLY)
    (λ file w ifs,
       let bufWriter := bufio.NewWriter file in
       match writeEntries entries w bufWriter with
       | None => None
       | Some (w, _, Some err) => Some (w, ifs, Some err)
       | Some (w, bufWriter, None) =>
           let '(w, _, err) := bufio.Flush w bufWriter in
           Some (w, ifs, err)
       end).

(** ** Store states reachable through the four operations

    Every operation may run in a different environment: the file may have
    been changed from outside between two calls. *)






(** ** The tooltip widget *)

(** A Go call either returns or panics. *)
Inductive outcome (A : Type) : Type :=
  | Returns (a : A)
  | Panics (v : gostring).
Global Arguments Returns {A} a.
Global Arguments Panics {A} v.

Definition HWND := Z.

Record WidgetBase : Type := mkWidgetBase { hWnd : HWND }.

(** What [AddWidget] uses of the [Widget] interface: [Parent()], which may
    be nil, and [BaseWidget()]. *)
Record Widget : Type := mkWidget {
  Parent : option WidgetBase;
  BaseWidget : WidgetBase
}.

Record ToolTip : Type := mkToolTip { tt_WidgetBase : WidgetBase }.

Record TOOLINFO : Type := mkTOOLINFO {
  CbSize : Z;
  UFlags : Z;
  Hwnd : HWND;
  UId : Z;
  LpszText : gostring
}.

Definition FALSE : Z := 0.
Definition TTF_IDISHWND : Z := 1.
Definition TTF_SUBCLASS : Z := 16.
Definition TTM_ADDTOOL : Z := 1024 + 50.

(** The window system: the size of a [TOOLINFO] and the answer of
    [SendMessage] to a message whose last parameter points to one. *)
Record WinAPI : Type := mkWinAPI {
  sizeofTOOLINFO : Z;
  SendMessage : HWND → Z → Z → TOOLINFO → Z
}.

Definition AddWidget (api : WinAPI) (tt : ToolTip) (widget : Widget)
    (text : gostring) : outcome (option Error) :=
  let ti :=
    {| CbSize := sizeofTOOLINFO api;
       Hwnd := match Parent widget with
               | Some parent => hWnd parent
               | None => 0
               end;
       UFlags := Z.lor TTF_IDISHWND TTF_SUBCLASS;
       UId := hWnd (BaseWidget widget);
       LpszText := text |} in
  if SendMessage api (hWnd (tt_WidgetBase tt)) TTM_ADDTOOL 0 ti =? FALSE
  then Returns (Some (newError "TTM_ADDTOOL failed"))
  else Returns None.

Definition RemoveWidget (tt : ToolTip) (widget : Widget) : outcome (option Error) :=
  Panics "not implemented".

(** ** The vocabulary of the specification *)

(** A valid key contains none of '=', CR, LF; a valid value neither CR nor
    LF. *)
Definition validKey (key : gostring) : Prop :=
  (EQ ∉ key) ∧ (CR ∉ key) ∧ (LF ∉ key).

Definition validValue (value : gostring) : Prop :=
  (CR ∉ value) ∧ (LF ∉ value).

(** A string carries no leading or trailing white space when no white-space
    code point starts or ends it. *)
Definition noSurroundingSpace (s : gostring) : Prop :=
  ∀ r, r ∈ strings.spaceRunes → ¬ r `prefix_of` s ∧ ¬ r `suffix_of` s.

(** A string is white space when it is a sequence of white-space code
    points. *)
Inductive allSpace : gostring → Prop :=
  | allSpace_nil : allSpace []
  | allSpace_cons r s : r ∈ strings.spaceRunes → allSpace s → allSpace (r ++ s).

(** The invariant of the specification: every key and every value of the
    store is valid. *)
Definition specInvariant (ifs : IniFileSettings) : Prop :=
  ∀ key val, data ifs !! key = Some val → validKey key ∧ validValue val.


Global Instance noSurroundingSpace_dec (s : gostring) :
  Decision (noSurroundingSpace s).
Proof.
  refine (cast_if (decide (Forall (λ r, ¬ r `prefix_of` s ∧ ¬ r `suffix_of` s)
                             strings.spaceRunes)));
    unfold noSurroundingSpace; by rewrite <- Forall_forall.
Defined.


(** The text of a file, given its lines (each followed by a line feed) and
    what follows the last line feed. *)
Definition textOf (lines : list gostring) (tail : gostring) : gostring :=
  concat ((λ l, l ++ [LF]) <$> lines) ++ tail.

(** The lines of such a file without the CR of a CR LF line end, and then
    what follows the last line feed, unless nothing does. *)
Definition linesRead (lines : list gostring) (tail : gostring) : list gostring :=
  (bufio.dropCR <$> lines) ++ match tail with [] => [] | _ => [tail] end.

(** The lines of a file that is read to its end. *)
Definition fileLines (content : gostring) : list gostring :=
  linesOf (S (length content)) (bufio.mkReader content EOF).

(** Storing lines one after the other in the store until one is rejected;
    [final] is the result when none is. *)
Fixpoint storeLines (lines : list gostring) (final : option Error)
    (ifs : IniFileSettings) : IniFileSettings * option Error :=
  match lines with
  | [] => (ifs, final)
  | l :: lines =>
      match storeLine l ifs with
      | inr err => (ifs, Some err)
      | inl ifs => storeLines lines final ifs
      end
  end.

(** How reading ends: [os.EOF] ends Load normally, any other error is
    wrapped and returned. *)
Definition endOfStream (e : Error) : option Error :=
  if bool_decide (e = EOF) then None else Some (wrapError e).

(** An environment without failures: read and write always succeed, and
    [os.Stat] fails for a missing file only. *)
Definition faultless (w : World) : Prop :=
  w_statFault w = None ∧ w_mkdirFault w = None ∧ w_openFault w = None
  ∧ w_readFault w = None ∧ w_writeFault w = None.

(** The environment in which the file [name] holds [content]. *)
Definition fileSet (w : World) (name content : gostring) : World :=
  setFiles w (<[name := content]> (w_files w)).

(** The text Save writes for the entries in the order given. *)
Definition savedText (entries : list (gostring * gostring)) : gostring :=
  concat ((λ kv, entryLine kv.1 kv.2) <$> entries).

(** The writer has flushed [c] to the file [name] and has met no error. *)
Definition okWriter (b : bufio.Writer) (name c : gostring) : Prop :=
  os.f_name (bufio.wr_file b) = name
  ∧ bufio.wr_off b = length c
  ∧ bufio.wr_err b = None.

(** ** A sample environment *)

Definition joinSlash (elem : list gostring) : gostring :=
  foldr (λ e acc, match acc with [] => e | _ => e ++ "/" ++ acc end) [] elem.

(** The sample environment with the given files and failures. *)
Definition sampleWorldWith (files : gmap gostring gostring)
    (statFault mkdirFault openFault : option Error)
    (readFault writeFault : option (nat * Error)) : World :=
  {| w_AppDataPath := ("/appdata" : gostring, None);
     w_OrganizationName := "org";
     w_ProductName := "walk";
     w_Join := joinSlash;
     w_Split := λ p, ("/appdata/org/walk/" : gostring, "settings.ini" : gostring);
     w_files := files;
     w_statFault := statFault;
     w_mkdirFault := mkdirFault;
     w_openFault := openFault;
     w_readFault := readFault;
     w_writeFault := writeFault |}.

Definition sampleWorld (files : gmap gostring gostring) : World :=
  sampleWorldWith files None None None None None.

Definition samplePath : gostring := "/appdata/org/walk/settings.ini".

(** The store of the round-trip example of the specification. *)
Definition sampleStore : IniFileSettings :=
  (Put (Put NewIniFileSettings "name" "walk").1 "version" "1.0").1.

(** The sample environment in which [os.Stat] is denied access. *)
Definition statDenied (files : gmap gostring gostring) : World :=
  sampleWorldWith files (Some EACCES) None None None None.

(** The sample environment in which [AppDataPath()] fails. *)
Definition appDataMissing (files : gmap gostring gostring) : World :=
  {| w_AppDataPath := ([], Some ENOENT);
     w_OrganizationName := "org";
     w_ProductName := "walk";
     w_Join := joinSlash;
     w_Split := λ p, ([], p);
     w_files := files;
     w_statFault := None;
     w_mkdirFault := None;
     w_openFault := None;
     w_readFault := None;
     w_writeFault := None |}.

(** Every key and every value of the store is free of surrounding white
    space. *)
Definition trimmedStore (ifs : IniFileSettings) : Prop :=
  ∀ key val, data ifs !! key = Some val →
             noSurroundingSpace key ∧ noSurroundingSpace val.

(** ** Creating a tooltip

    [NewToolTip] works through three calls of the toolkit and the window
    system, [initWidget], [parent.Children().Add] and [SetWindowPos], and
    through [tt.Dispose()] in a deferred function.  The model records the
    calls made, in order; the toolkit says how [initWidget] and
    [Children().Add] end. *)

Definition WS_POPUP : Z := 2147483648.
Definition TTS_ALWAYSTIP : Z := 1.
Definition TTS_BALLOON : Z := 64.
Definition WS_EX_TOPMOST : Z := 8.
Definition HWND_TOPMOST : HWND := -1.
Definition SWP_NOSIZE : Z := 1.
Definition SWP_NOMOVE : Z := 2.
Definition SWP_NOACTIVATE : Z := 16.

Inductive toolkitCall : Type :=
  | callInitWidget (className : gostring) (style exStyle : Z)
  | callChildrenAdd (h : HWND)
  | callSetWindowPos (h hWndInsertAfter : HWND) (x y cx cy flags : Z)
  | callDispose (h : HWND).

Global Instance toolkitCall_eq_dec : EqDecision toolkitCall.
Proof. solve_decision. Defined.

Record Toolkit : Type := mkToolkit {
  initWidget : HWND + Error;
  childrenAdd : HWND → option Error
}.

Definition NewToolTip (tk : Toolkit)
  : list toolkitCall * (option ToolTip * option Error) :=
  let calls :=
    [callInitWidget "tooltips_class32"
       (Z.lor (Z.lor WS_POPUP TTS_ALWAYSTIP) TTS_BALLOON) WS_EX_TOPMOST] in
  match initWidget tk with
  | inr err => (calls, (None, Some err))
  | inl h =>
      let tt := {| tt_WidgetBase := {| hWnd := h |} |} in
      let succeeded := false in
      let calls := calls ++ [callChildrenAdd h] in
      let '(calls, succeeded, result) :=
        match childrenAdd tk h with
        | Some err => (calls, succeeded, (None, Some err))
        | None =>
            let calls :=
              calls ++ [callSetWindowPos h HWND_TOPMOST 0 0 0 0
                          (Z.lor (Z.lor SWP_NOMOVE SWP_NOSIZE) SWP_NOACTIVATE)] in
            let succeeded := true in
            (calls, succeeded, (Some tt, None))
        end in
      (if negb succeeded then calls ++ [callDispose h] else calls, result)
  end.

(** ** The file browser example *)

Module filebrowser.

(** What the example uses of an [os.FileInfo]. *)
Record osFileInfo : Type := mkOsFileInfo {
  fi_Size : Z;
  fi_Mtime_ns : Z;
  fi_IsDirectory : bool
}.

(** The file system as the example sees it: the error of [os.Open] on a
    directory, the result of [dir.Readdirnames(-1)], the result of [os.Stat]
    and the function [path.Join]. *)
Record FileSystem : Type := mkFileSystem {
  fs_Open : gostring → option Error;
  fs_Readdirnames : gostring → list gostring * option Error;
  fs_Stat : gostring → osFileInfo + Error;
  fs_Join : list gostring → gostring
}.

Record FileInfo : Type := mkFileInfo {
  Name : gostring;
  Size : Z;
  Modified : Z
}.

(** The model holds its rows; of its publisher of resets the number of
    publications is kept. *)
Record FileInfoModel : Type := mkFileInfoModel {
  items : list FileInfo;
  rowsResetPublished : nat
}.

Definition RowCount (m : FileInfoModel) : Z :=
  Z.of_nat (length (items m)).

(** A cell is a string, an [int64] or a local time, given by its seconds. *)
Inductive cell : Type :=
  | cellString (s : gostring)
  | cellInt64 (n : Z)
  | cellTime (seconds : Z).

(** [Value(row, col)]: indexing [m.items] panics out of range, before the
    column is looked at. *)
Definition Value (m : FileInfoModel) (row col : Z) : outcome cell :=
  if (row <? 0) || (Z.of_nat (length (items m)) <=? row)
  then Panics "runtime error: index out of range"
  else
    match items m !! Z.to_nat row with
    | None => Panics "runtime error: index out of range"
    | Some item =>
        match col with
        | 0 => Returns (cellString (Name item))
        | 1 => Returns (cellInt64 (Size item))
        | 2 => Returns (cellTime (Modified item))
        | _ => Panics "unexpected col"
        end
    end.

Definition excludePath (path : gostring) : bool :=
  if bool_decide (path = ("System Volume Information" : gostring)) then true
  else false.

(** The loop of [ResetRows] over the names, appending to the rows. *)
Fixpoint resetLoop (fs : FileSystem) (dirPath : gostring)
    (names : list gostring) (items : list FileInfo) : list FileInfo :=
  match names with
  | [] => items
  | name :: names =>
      if negb (excludePath name) then
        let fullPath := fs_Join fs [dirPath; name] in
        match fs_Stat fs fullPath with
        | inr _ => resetLoop fs dirPath names items
        | inl fi =>
            let item := {| Name := name;
                           Size := fi_Size fi;
                           Modified := Z.quot (fi_Mtime_ns fi) 1000000000 |} in
            resetLoop fs dirPath names (items ++ [item])
        end
      else resetLoop fs dirPath names items
  end.

Definition ResetRows (fs : FileSystem) (m : FileInfoModel) (dirPath : gostring)
  : FileInfoModel * option Error :=
  match fs_Open fs dirPath with
  | Some err => (m, Some err)
  | None =>
      match fs_Readdirnames fs dirPath with
      | (_, Some err) => (m, Some err)
      | (names, None) =>
          let items := resetLoop fs dirPath names [] in
          ({| items := items;
              rowsResetPublished := S (rowsResetPublished m) |}, None)
      end
  end.

(** A tree view item, as far as its text and its parent go. *)
#[warnings="-register-all"] Inductive TreeViewItem : Type :=
  | mkTreeViewItem (Text : gostring) (Parent : option TreeViewItem).

(** The loop of [pathForTreeViewItem], which puts the text of the item
    before the parts it has and goes on with the parent. *)
Fixpoint pathParts (item : TreeViewItem) (parts : list gostring)
  : list gostring :=
  match item with
  | mkTreeViewItem text parent =>
      let parts := [text] ++ parts in
      match parent with
      | None => parts
      | Some item => pathParts item parts
      end
  end.

Definition pathForTreeViewItem (fs : FileSystem) (item : option TreeViewItem)
  : gostring :=
  fs_Join fs match item with
             | None => []
             | Some item => pathParts item []
             end.

(** The calls [populateTreeViewItem] makes on the tree view, on the children
    of the item and on the message box. *)
Inductive uiCall : Type :=
  | SetSuspended (suspended : bool)
  | ChildrenClear
  | ChildrenAdd (text : gostring)
  | MsgBox (title : gostring) (err : Error).

Global Instance uiCall_eq_dec : EqDecision uiCall.
Proof. solve_decision. Defined.

(** A call returns or panics with an error. *)
Inductive exit : Type :=
  | Normal
  | PanicWith (err : Error).

Definition panicIfErr (err : option Error) : exit :=
  match err with
  | Some err => PanicWith err
  | None => Normal
  end.

(** The loop of [populateTreeViewItem] over the names. *)
Fixpoint populateLoop (fs : FileSystem) (dirPath : gostring)
    (names : list gostring) (calls : list uiCall) : list uiCall * exit :=
  match names with
  | [] => (calls, Normal)
  | name :: names =>
      match fs_Stat fs (fs_Join fs [dirPath; name]) with
      | inr err => (calls, panicIfErr (Some err))
      | inl fi =>
          if negb (excludePath name) && fi_IsDirectory fi
          then populateLoop fs dirPath names (calls ++ [ChildrenAdd name])
          else populateLoop fs dirPath names calls
      end
  end.

(** [populateTreeViewItem(parent)]: the deferred [SetSuspended(false)] is the
    last call on every way out. *)
Definition populateTreeViewItem (fs : FileSystem) (parent : TreeViewItem)
  : list uiCall * exit :=
  let calls := [SetSuspended true; ChildrenClear] in
  let dirPath := pathForTreeViewItem fs (Some parent) in
  let '(calls, exit) :=
    match fs_Open fs dirPath with
    | Some err => (calls ++ [MsgBox "Error" err], Normal)
    | None =>
        match fs_Readdirnames fs dirPath with
        | (_, Some err) => (calls, panicIfErr (Some err))
        | (names, None) => populateLoop fs dirPath names calls
        end
    end in
  (calls ++ [SetSuspended false], exit).

(** A sample directory: two files, a folder and the folder the example
    leaves out, which cannot be stat'ed. *)
Definition sampleFS : FileSystem :=
  {| fs_Open := λ dir, if bool_decide (dir = ("C:" : gostring)) then None
                       else Some ENOENT;
     fs_Readdirnames := λ dir,
       ([("a.txt" : gostring); ("System Volume Information" : gostring);
         ("docs" : gostring); ("gone" : gostring)], None);
     fs_Stat := λ p,
       if bool_decide (p = ("C:/a.txt" : gostring))
       then inl (mkOsFileInfo 12 1500000000999999999 false)
       else if bool_decide (p = ("C:/docs" : gostring))
       then inl (mkOsFileInfo 0 1400000000000000000 true)
       else inr EACCES;
     fs_Join := joinSlash |}.

(** The names [ResetRows] shows: those it does not leave out and can stat;
    and the names [populateTreeViewItem] adds: those it does not leave out
    and finds to be directories. *)
Definition shown (fs : FileSystem) (dirPath name : gostring) : bool :=
  negb (excludePath name)
  && match fs_Stat fs (fs_Join fs [dirPath; name]) with
     | inl _ => true
     | inr _ => false
     end.

Definition folder (fs : FileSystem) (dirPath name : gostring) : bool :=
  negb (excludePath name)
  && match fs_Stat fs (fs_Join fs [dirPath; name]) with
     | inl fi => fi_IsDirectory fi
     | inr _ => false
     end.

End filebrowser.

(** * Properties *)

(** Closed decidable facts are settled by evaluation. *)
Ltac by_evaluation := apply (bool_decide_unpack _); vm_compute; exact I.

(** Membership in a list given by its elements. *)
Ltac pick c := exists c; split; [rewrite !elem_of_cons; tauto|done].

(** ** Searching and trimming *)

Section string_facts.
Implicit Types (s chars : gostring) (c : ascii).

Lemma IndexAny_ge s chars : -1 ≤ strings.IndexAny s chars.
Proof.
  induction s as [|c s IH]; simpl; [lia|].
  case_bool_decide; [lia|].
  destruct (Z.eqb_spec (strings.IndexAny s chars) (-1)); lia.
Qed.

Lemma IndexAny_none s chars :
  strings.IndexAny s chars = -1 ↔ (∀ c, c ∈ chars → c ∉ s).
Proof.
  induction s as [|c s IH]; simpl.
  - split; [|done]. intros _ c _. apply not_elem_of_nil.
  - pose proof (IndexAny_ge s chars) as Hge.
    case_bool_decide as Hc.
    + split; [lia|]. intros H. destruct (H c Hc). left.
    + destruct (Z.eqb_spec (strings.IndexAny s chars) (-1)) as [Heq|Hne].
      * split; [|done]. intros _ d Hd. rewrite not_elem_of_cons. split.
        -- intros ->. done.
        -- by apply IH.
      * split; [lia|]. intros H. destruct Hne. apply IH.
        intros d Hd Hin. apply (H d Hd). by right.
Qed.

Lemma IndexAny_found s chars :
  (strings.IndexAny s chars >? -1) = true ↔ (∃ c, c ∈ chars ∧ c ∈ s).
Proof.
  pose proof (IndexAny_ge s chars) as Hge.
  pose proof (IndexAny_none s chars) as Hnone.
  rewrite Z.gtb_ltb, Z.ltb_lt. split.
  - intros Hlt. clear Hnone Hge.
    induction s as [|d s IH]; simpl in Hlt; [lia|].
    case_bool_decide as Hd.
    + exists d. split; [done|left].
    + destruct (Z.eqb_spec (strings.IndexAny s chars) (-1)); [lia|].
      pose proof (IndexAny_ge s chars).
      destruct IH as (c & Hc & Hs); [lia|]. exists c. split; [done|by right].
  - intros (c & Hc & Hs).
    destruct (decide (strings.IndexAny s chars = -1)) as [Heq|]; [|lia].
    destruct (proj1 Hnone Heq c Hc Hs).
Qed.

Lemma Index_ge s sub : -1 ≤ strings.Index s sub.
Proof.
  induction s as [|d s IH]; simpl.
  - case_bool_decide; lia.
  - case_bool_decide; [lia|].
    destruct (Z.eqb_spec (strings.Index s sub) (-1)); lia.
Qed.

Lemma prefix_single c d s : [c] `prefix_of` (d :: s) ↔ c = d.
Proof.
  split.
  - intros [k Hk]. by injection Hk.
  - intros ->. by exists s.
Qed.

Lemma Index_byte_none s c : strings.Index s [c] = -1 ↔ c ∉ s.
Proof.
  induction s as [|d s IH]; simpl.
  - split; [|done]. intros _. apply not_elem_of_nil.
  - pose proof (Index_ge s [c]) as Hge.
    rewrite not_elem_of_cons. case_bool_decide as Hp.
    + apply prefix_single in Hp. split; [lia|]. intros [Hne _]. done.
    + rewrite prefix_single in Hp.
      destruct (Z.eqb_spec (strings.Index s [c]) (-1)) as [Heq|Hne].
      * split; [|done]. intros _. split; [done|]. by apply IH.
      * split; [lia|]. intros [_ Hs]. destruct Hne. by apply IH.
Qed.

Lemma Index_byte_first pre post c :
  c ∉ pre → strings.Index (pre ++ c :: post) [c] = Z.of_nat (length pre).
Proof.
  induction pre as [|d pre IH]; intros Hpre; simpl.
  - rewrite bool_decide_eq_true_2; [done|]. by apply prefix_single.
  - apply not_elem_of_cons in Hpre as [Hne Hpre].
    rewrite bool_decide_eq_false_2; [|by rewrite prefix_single].
    rewrite (IH Hpre).
    destruct (Z.eqb_spec (Z.of_nat (length pre)) (-1)); lia.
Qed.

Lemma spaceRunes_nonempty r : r ∈ strings.spaceRunes → (0 < length r)%nat.
Proof.
  revert r. apply Forall_forall.
  unfold strings.spaceRunes. repeat constructor.
Qed.

Lemma leadingSpace_Some s r :
  strings.leadingSpace s = Some r → r ∈ strings.spaceRunes ∧ r `prefix_of` s.
Proof.
  intros H. apply find_some in H as [Hin Hp].
  split; [by apply list_elem_of_In|]. by apply bool_decide_eq_true in Hp.
Qed.

Lemma leadingSpace_None s :
  strings.leadingSpace s = None ↔ (∀ r, r ∈ strings.spaceRunes → ¬ r `prefix_of` s).
Proof.
  split.
  - intros H r Hr Hp. apply list_elem_of_In in Hr.
    pose proof (find_none _ _ H r Hr) as Hf. simpl in Hf.
    by apply bool_decide_eq_false in Hf.
  - intros H. destruct (strings.leadingSpace s) as [r|] eqn:E; [|done].
    apply leadingSpace_Some in E as [Hr Hp]. destruct (H r Hr Hp).
Qed.

Lemma trailingSpace_Some s r :
  strings.trailingSpace s = Some r → r ∈ strings.spaceRunes ∧ r `suffix_of` s.
Proof.
  intros H. apply find_some in H as [Hin Hp].
  split; [by apply list_elem_of_In|]. by apply bool_decide_eq_true in Hp.
Qed.

Lemma trailingSpace_None s :
  strings.trailingSpace s = None ↔ (∀ r, r ∈ strings.spaceRunes → ¬ r `suffix_of` s).
Proof.
  split.
  - intros H r Hr Hp. apply list_elem_of_In in Hr.
    pose proof (find_none _ _ H r Hr) as Hf. simpl in Hf.
    by apply bool_decide_eq_false in Hf.
  - intros H. destruct (strings.trailingSpace s) as [r|] eqn:E; [|done].
    apply trailingSpace_Some in E as [Hr Hp]. destruct (H r Hr Hp).
Qed.

Lemma allSpace_app l r : allSpace l → allSpace r → allSpace (l ++ r).
Proof.
  induction 1 as [|x l Hx Hl IH]; intros Hr; [done|].
  rewrite <- (assoc_L (++)). constructor; auto.
Qed.

Lemma allSpace_rune r : r ∈ strings.spaceRunes → allSpace r.
Proof.
  intros Hr. rewrite <- (right_id_L [] (++) r). constructor; [done|constructor].
Qed.

(** What [trimLeft] removes is white space, and with enough fuel nothing
    that could be removed is left. *)
Lemma trimLeft_split n s :
  ∃ l, allSpace l ∧ s = l ++ strings.trimLeft n s.
Proof.
  revert s. induction n as [|n IH]; intros s; simpl.
  - exists []. split; [constructor|done].
  - destruct (strings.leadingSpace s) as [r|] eqn:E.
    + apply leadingSpace_Some in E as [Hr [k ->]].
      rewrite drop_app_length.
      destruct (IH k) as (l & Hl & Hk).
      exists (r ++ l). split; [by constructor|].
      rewrite <- (assoc_L (++)). by rewrite <- Hk.
    + exists []. split; [constructor|done].
Qed.

Lemma trimLeft_done n s :
  (length s ≤ n)%nat → strings.leadingSpace (strings.trimLeft n s) = None.
Proof.
  revert s. induction n as [|n IH]; intros s Hlen; simpl.
  - destruct s; [reflexivity|simpl in Hlen; lia].
  - destruct (strings.leadingSpace s) as [r|] eqn:E; [|done].
    apply leadingSpace_Some in E as [Hr [k ->]].
    rewrite drop_app_length. apply IH.
    pose proof (spaceRunes_nonempty r Hr). rewrite length_app in Hlen. lia.
Qed.

Lemma trimRight_split n s :
  ∃ r, allSpace r ∧ s = strings.trimRight n s ++ r.
Proof.
  revert s. induction n as [|n IH]; intros s; simpl.
  - exists []. split; [constructor|]. by rewrite (right_id_L [] (++)).
  - destruct (strings.trailingSpace s) as [x|] eqn:E.
    + apply trailingSpace_Some in E as [Hx [k ->]].
      rewrite length_app, Nat.add_sub, take_app_length.
      destruct (IH k) as (r & Hr & Hk).
      exists (r ++ x). split; [apply allSpace_app; [done|by apply allSpace_rune]|].
      rewrite (assoc_L (++)). by rewrite <- Hk.
    + exists []. split; [constructor|]. by rewrite (right_id_L [] (++)).
Qed.

Lemma trimRight_done n s :
  (length s ≤ n)%nat → strings.trailingSpace (strings.trimRight n s) = None.
Proof.
  revert s. induction n as [|n IH]; intros s Hlen; simpl.
  - destruct s; [reflexivity|simpl in Hlen; lia].
  - destruct (strings.trailingSpace s) as [x|] eqn:E; [|done].
    apply trailingSpace_Some in E as [Hx [k ->]].
    rewrite length_app, Nat.add_sub, take_app_length. apply IH.
    pose proof (spaceRunes_nonempty x Hx). rewrite length_app in Hlen. lia.
Qed.

(** [TrimSpace] returns the part of [s] between a white-space prefix and a
    white-space suffix, and that part neither starts nor ends with white
    space. *)
Lemma TrimSpace_split s :
  ∃ l r, s = l ++ strings.TrimSpace s ++ r
         ∧ allSpace l ∧ allSpace r
         ∧ noSurroundingSpace (strings.TrimSpace s).
Proof.
  unfold strings.TrimSpace.
  destruct (trimLeft_split (length s) s) as (l & Hl & Hs).
  pose proof (trimLeft_done (length s) s (le_n _)) as Hlead.
  set (t := strings.trimLeft (length s) s) in *.
  destruct (trimRight_split (length t) t) as (r & Hr & Ht).
  pose proof (trimRight_done (length t) t (le_n _)) as Htrail.
  set (u := strings.trimRight (length t) t) in *.
  exists l, r. split; [by rewrite <- Ht|]. split; [done|]. split; [done|].
  intros x Hx. split.
  - intros Hp. rewrite leadingSpace_None in Hlead. apply (Hlead x Hx).
    rewrite Ht. by apply prefix_app_r.
  - rewrite trailingSpace_None in Htrail. by apply Htrail.
Qed.

Lemma TrimSpace_id s : noSurroundingSpace s → strings.TrimSpace s = s.
Proof.
  intros Hs. unfold strings.TrimSpace.
  assert (Hl : ∀ n, strings.trimLeft n s = s).
  { intros [|n]; [done|]. simpl.
    rewrite (proj2 (leadingSpace_None s)); [done|]. intros r Hr. by apply Hs. }
  rewrite Hl.
  destruct (length s) as [|n]; [done|]. simpl.
  rewrite (proj2 (trailingSpace_None s)); [done|]. intros r Hr. by apply Hs.
Qed.


End string_facts.

(** ** Put and Get *)

Lemma Put_rejects (key value : gostring) :
  (strings.IndexAny key [EQ; CR; LF] >? -1)
  || (strings.IndexAny value [CR; LF] >? -1) = true
  ↔ ¬ (validKey key ∧ validValue value).
Proof.
  rewrite orb_true_iff, !IndexAny_found. unfold validKey, validValue.
  split.
  - intros [(c & Hc & Hs)|(c & Hc & Hs)] ((HE & HC & HL) & (HC' & HL'));
      rewrite !elem_of_cons, elem_of_nil in Hc;
      destruct Hc as [->|[->|Hc]]; try done; by destruct Hc as [->|?].
  - intros Hnot.
    destruct (decide (EQ ∈ key)); [left; pick EQ|].
    destruct (decide (CR ∈ key)); [left; pick CR|].
    destruct (decide (LF ∈ key)); [left; pick LF|].
    destruct (decide (CR ∈ value)); [right; pick CR|].
    destruct (decide (LF ∈ value)); [right; pick LF|].
    destruct Hnot. done.
Qed.

Lemma Put_valid (ifs : IniFileSettings) (key value : gostring) :
  validKey key → validValue value →
  Put ifs key value = ({| data := <[key := value]> (data ifs) |}, None).
Proof.
  intros Hk Hv. unfold Put.
  destruct ((strings.IndexAny key [EQ; CR; LF] >? -1)
            || (strings.IndexAny value [CR; LF] >? -1)) eqn:Hchk; [|done].
  apply Put_rejects in Hchk. destruct Hchk. done.
Qed.

(** C1: a valid key and a valid value are accepted by Put, and Get then
    returns that value with found = true. *)
Theorem C1_Put_then_Get (ifs : IniFileSettings) (key value : gostring) :
  validKey key → validValue value →
  (Put ifs key value).2 = None
  ∧ Get (Put ifs key value).1 key = (value, true).
Proof.
  intros Hk Hv. rewrite (Put_valid ifs key value Hk Hv). split; [done|].
  unfold Get. simpl. by rewrite lookup_insert_eq.
Qed.

Lemma C1_Put_then_Get_witness :
  (validKey "name" ∧ validValue "walk")
  ∧ (Put NewIniFileSettings "name" "walk").2 = None
  ∧ Get (Put NewIniFileSettings "name" "walk").1 "name" = ("walk" : gostring, true).
Proof.
  assert (Hk : validKey "name") by by_evaluation.
  assert (Hv : validValue "walk") by by_evaluation.
  split; [done|]. exact (C1_Put_then_Get NewIniFileSettings "name" "walk" Hk Hv).
Defined.

(** C2: Put fails exactly when the key contains '=', CR or LF or the value
    contains CR or LF, the failure is InvalidFormat, and Put fails in no
    other way. *)
Theorem C2_Put_fails_iff_invalid (ifs : IniFileSettings) (key value : gostring) :
  ((Put ifs key value).2 = Some InvalidFormat
   ↔ (EQ ∈ key ∨ CR ∈ key ∨ LF ∈ key ∨ CR ∈ value ∨ LF ∈ value))
  ∧ ((Put ifs key value).2 = None
     ↔ ¬ (EQ ∈ key ∨ CR ∈ key ∨ LF ∈ key ∨ CR ∈ value ∨ LF ∈ value))
  ∧ ((Put ifs key value).2 = None ∨ (Put ifs key value).2 = Some InvalidFormat).
Proof.
  assert (Hiff : ¬ (validKey key ∧ validValue value)
                 ↔ (EQ ∈ key ∨ CR ∈ key ∨ LF ∈ key ∨ CR ∈ value ∨ LF ∈ value)).
  { unfold validKey, validValue. split; [|tauto]. intros Hnot.
    destruct (decide (EQ ∈ key)); [tauto|].
    destruct (decide (CR ∈ key)); [tauto|].
    destruct (decide (LF ∈ key)); [tauto|].
    destruct (decide (CR ∈ value)); [tauto|].
    destruct (decide (LF ∈ value)); [tauto|].
    destruct Hnot. done. }
  rewrite <- Hiff, <- Put_rejects. unfold Put.
  destruct ((strings.IndexAny key [EQ; CR; LF] >? -1)
            || (strings.IndexAny value [CR; LF] >? -1)); simpl.
  - split; [done|]. split; [|by right]. split; [done|]. intros H. by destruct H.
  - split; [|split; [done|by left]]. split; done.
Qed.

(** ** Reading lines *)

Section reader_facts.
Local Open Scope nat_scope.
Implicit Types (l p rest acc : gostring) (e : Error) (b : bufio.Reader).

Lemma defaultBufSize_ge : 2 ≤ bufio.defaultBufSize.
Proof. unfold bufio.defaultBufSize. lia. Qed.

Local Opaque bufio.defaultBufSize.

Lemma find_LF_none l : LF ∉ l → list_find (λ c, c = LF) l = None.
Proof.
  intros Hl. apply list_find_None, Forall_forall. by intros c Hc ->.
Qed.

Lemma find_LF_first l rest :
  LF ∉ l → list_find (λ c, c = LF) (l ++ LF :: rest) = Some (length l, LF).
Proof.
  intros Hl. rewrite list_find_app_r by by apply find_LF_none.
  reflexivity.
Qed.

Lemma dropCR_nil : bufio.dropCR [] = [].
Proof. reflexivity. Qed.

Lemma dropCR_app l p : p ≠ [] → bufio.dropCR (l ++ p) = l ++ bufio.dropCR p.
Proof.
  intros Hp. unfold bufio.dropCR.
  assert (Hlast : last (l ++ p) = last p).
  { rewrite last_app. destruct (last p) eqn:E; [done|].
    by apply last_None in E. }
  rewrite Hlast. case_bool_decide; [|done].
  assert (0 < length p) by (destruct p; [done|simpl; lia]).
  rewrite length_app, take_app_ge by lia. f_equal. f_equal. lia.
Qed.

Lemma dropCR_no_CR l : last l ≠ Some CR → bufio.dropCR l = l.
Proof. intros H. unfold bufio.dropCR. by rewrite bool_decide_eq_false_2. Qed.

Lemma dropCR_not_elem l c : c ∉ l → c ∉ bufio.dropCR l.
Proof.
  unfold bufio.dropCR. case_bool_decide; [|done].
  intros Hc Hin. apply Hc. apply elem_of_take in Hin as (i & Hi & _).
  by eapply list_elem_of_lookup_2.
Qed.

(** A line feed among the next bytes that fit the buffer ends the line. *)
Lemma ReadLine_line l rest e :
  LF ∉ l → length l < bufio.defaultBufSize →
  bufio.ReadLine (bufio.mkReader (l ++ LF :: rest) e)
  = (bufio.dropCR l, false, None, bufio.mkReader rest e).
Proof.
  intros Hl Hlen. unfold bufio.ReadLine. simpl.
  assert (Hw : take bufio.defaultBufSize (l ++ LF :: rest)
               = l ++ LF :: take (bufio.defaultBufSize - S (length l)) rest).
  { rewrite take_app_ge by lia.
    replace (bufio.defaultBufSize - length l)
      with (S (bufio.defaultBufSize - S (length l))) by lia.
    done. }
  rewrite Hw, find_LF_first by done.
  rewrite take_app_length.
  rewrite (cons_middle LF l rest), (assoc_L (++)).
  rewrite (drop_app_length' (l ++ [LF]) rest); [done|].
  rewrite length_app. simpl. lia.
Qed.

(** Without a line feed in a full buffer, the buffer is handed out as a
    prefix of the line. *)
Lemma ReadLine_full p e :
  LF ∉ take bufio.defaultBufSize p → bufio.defaultBufSize ≤ length p →
  let n := if bool_decide (last (take bufio.defaultBufSize p) = Some CR)
           then bufio.defaultBufSize - 1 else bufio.defaultBufSize in
  bufio.ReadLine (bufio.mkReader p e)
  = (take n p, true, None, bufio.mkReader (drop n p) e).
Proof.
  intros Hp Hlen n. unfold bufio.ReadLine. simpl.
  rewrite find_LF_none by done.
  rewrite bool_decide_eq_true_2 by done. fold n.
  rewrite take_take. replace (n `min` bufio.defaultBufSize) with n; [done|].
  subst n. case_bool_decide; lia.
Qed.

(** What is left of the stream is the last line; at the end of the stream
    the error of the stream is reported. *)
Lemma ReadLine_rest p e :
  LF ∉ p → length p < bufio.defaultBufSize →
  bufio.ReadLine (bufio.mkReader p e)
  = match p with
    | [] => ([], false, Some e, bufio.mkReader [] e)
    | _ => (p, false, None, bufio.mkReader [] e)
    end.
Proof.
  intros Hp Hlen. unfold bufio.ReadLine. simpl.
  rewrite take_ge by lia. rewrite find_LF_none by done.
  rewrite bool_decide_eq_false_2 by lia. by destruct p.
Qed.

(** Every call either reports the error of the stream or consumes at least
    one byte, and no line feed is ever part of what it returns. *)
Lemma ReadLine_progress b ln isPrefix err b' :
  bufio.ReadLine b = (ln, isPrefix, err, b') →
  bufio.rd_err b' = bufio.rd_err b
  ∧ (LF ∉ ln)
  ∧ match err with
    | None => length (bufio.rd_pending b') < length (bufio.rd_pending b)
    | Some e => e = bufio.rd_err b
    end.
Proof.
  pose proof defaultBufSize_ge as Hsz.
  destruct b as [p e]. unfold bufio.ReadLine. simpl.
  destruct (list_find (λ c, c = LF) (take bufio.defaultBufSize p))
    as [[i c]|] eqn:Hfind.
  - apply list_find_Some in Hfind as (Hi & -> & Hbefore).
    intros [= <- <- <- <-]. simpl. split; [done|]. split.
    + apply dropCR_not_elem. intros Hin.
      apply elem_of_take in Hin as (j & Hj & Hlt).
      by apply (Hbefore j LF Hj Hlt).
    + apply lookup_lt_Some in Hi. rewrite length_take in Hi.
      rewrite length_drop. lia.
  - apply list_find_None in Hfind.
    assert (Hno : LF ∉ take bufio.defaultBufSize p).
    { intros Hin. rewrite Forall_forall in Hfind. by apply (Hfind LF Hin). }
    case_bool_decide as Hfull.
    + intros [= <- <- <- <-]. simpl. split; [done|]. split.
      * intros Hin. apply Hno. apply elem_of_take in Hin as (j & Hj & _).
        by eapply list_elem_of_lookup_2.
      * rewrite length_drop. case_bool_decide; lia.
    + rewrite take_ge in Hno by lia. destruct p as [|c p].
      * intros [= <- <- <- <-]. simpl. split; [done|]. split; [|done].
        apply not_elem_of_nil.
      * intros [= <- <- <- <-]. simpl. split; [done|]. split; [done|lia].
Qed.

(** The inner loop of Load ends for every stream: it leaves with a line
    free of line feeds and a shorter stream, or it returns. *)
Lemma readLineBytes_ends fuel b acc :
  length (bufio.rd_pending b) < fuel → LF ∉ acc →
  ∃ out, readLineBytes fuel b acc = Some out
         ∧ match out with
           | Break line b' =>
               (LF ∉ line)
               ∧ length (bufio.rd_pending b') < length (bufio.rd_pending b)
               ∧ bufio.rd_err b' = bufio.rd_err b
           | Return err => err = endOfStream (bufio.rd_err b)
           end.
Proof.
  revert b acc. induction fuel as [|fuel IH]; intros b acc Hfuel Hacc; [lia|].
  simpl. destruct (bufio.ReadLine b) as [[[ln isPrefix] err] b'] eqn:Hread.
  apply ReadLine_progress in Hread as (Herr & Hln & Hprog).
  destruct err as [e|].
  - subst e. unfold endOfStream.
    case_bool_decide; (eexists; split; [done|]); done.
  - assert (Hacc' : LF ∉ acc ++ ln) by (rewrite elem_of_app; tauto).
    destruct isPrefix.
    + destruct (IH b' (acc ++ ln)) as (out & Hout & Hspec); [lia|done|].
      exists out. split; [done|]. destruct out as [line b''|err]; [|congruence].
      destruct Hspec as (? & ? & ?). split; [done|]. split; [lia|congruence].
    + eexists. split; [done|]. simpl. done.
Qed.

(** The inner loop assembles a line that ends in a line feed from however
    many buffers it spans. *)
Lemma readLineBytes_line fuel l rest e acc :
  LF ∉ l → length l < fuel →
  readLineBytes fuel (bufio.mkReader (l ++ LF :: rest) e) acc
  = Some (Break (acc ++ bufio.dropCR l) (bufio.mkReader rest e)).
Proof.
  pose proof defaultBufSize_ge as Hsz.
  revert l acc. induction fuel as [|fuel IH]; intros l acc Hl Hfuel; [lia|].
  cbn [readLineBytes].
  destruct (decide (length l < bufio.defaultBufSize)) as [Hshort|Hlong].
  - by rewrite ReadLine_line.
  - assert (Htake : take bufio.defaultBufSize (l ++ LF :: rest)
                    = take bufio.defaultBufSize l)
      by (apply take_app_le; lia).
    assert (Hno : LF ∉ take bufio.defaultBufSize (l ++ LF :: rest)).
    { rewrite Htake. intros Hin. apply Hl.
      apply elem_of_take in Hin as (j & Hj & _). by eapply list_elem_of_lookup_2. }
    pose proof (ReadLine_full (l ++ LF :: rest) e Hno) as Hfull.
    cbv zeta in Hfull. rewrite Hfull by (rewrite length_app; lia). clear Hfull.
    rewrite Htake.
    set (n := if bool_decide (last (take bufio.defaultBufSize l) = Some CR)
              then bufio.defaultBufSize - 1 else bufio.defaultBufSize).
    assert (Hn : 1 ≤ n ≤ bufio.defaultBufSize)
      by (subst n; case_bool_decide; lia).
    rewrite take_app_le, drop_app_le by lia.
    assert (Hdrop : LF ∉ drop n l).
    { intros Hin. apply Hl. apply list_elem_of_lookup in Hin as [j Hj].
      rewrite lookup_drop in Hj. by eapply list_elem_of_lookup_2. }
    rewrite IH; [|done|rewrite length_drop; lia].
    do 2 f_equal. rewrite <- (assoc_L (++)). f_equal.
    destruct (drop n l) as [|c k] eqn:Hk.
    + assert (length l ≤ n).
      { apply (f_equal length) in Hk. rewrite length_drop in Hk. simpl in Hk. lia. }
      assert (n = bufio.defaultBufSize) by lia.
      rewrite dropCR_nil, (right_id_L [] (++)), take_ge by lia.
      symmetry. apply dropCR_no_CR.
      subst n. case_bool_decide as Hcr; [lia|]. by rewrite take_ge in Hcr by lia.
    + transitivity (bufio.dropCR (take n l ++ drop n l)).
      * rewrite Hk. symmetry. by apply dropCR_app.
      * by rewrite take_drop.
Qed.

(** What follows the last line feed, when it fits the buffer, is the last
    line; nothing left ends the loop of Load. *)
Lemma readLineBytes_tail fuel p e acc :
  LF ∉ p → length p < bufio.defaultBufSize → 0 < fuel →
  readLineBytes fuel (bufio.mkReader p e) acc
  = Some match p with
         | [] => Return (endOfStream e)
         | _ => Break (acc ++ p) (bufio.mkReader [] e)
         end.
Proof.
  intros Hp Hlen Hfuel. destruct fuel as [|fuel]; [lia|].
  cbn [readLineBytes]. rewrite ReadLine_rest by done.
  destruct p; [|done]. unfold endOfStream. by case_bool_decide.
Qed.

End reader_facts.

(** ** Parsing one line *)

Lemma storeLine_split (pre post : gostring) (ifs : IniFileSettings) :
  EQ ∉ pre →
  storeLine (pre ++ EQ :: post) ifs
  = inl {| data := <[strings.TrimSpace pre := strings.TrimSpace post]> (data ifs) |}.
Proof.
  intros Hpre. unfold storeLine. rewrite (Index_byte_first pre post EQ Hpre).
  destruct (Z.eqb_spec (Z.of_nat (length pre)) (-1)) as [|_]; [lia|].
  rewrite Nat2Z.id, take_app_length.
  replace (Z.to_nat (Z.of_nat (length pre) + 1)) with (S (length pre)) by lia.
  rewrite (cons_middle EQ pre post), (assoc_L (++)).
  rewrite (drop_app_length' (pre ++ [EQ]) post); [done|].
  rewrite length_app. simpl. lia.
Qed.

Lemma storeLine_missing (line : gostring) (ifs : IniFileSettings) :
  EQ ∉ line → storeLine line ifs = inr ParseError.
Proof.
  intros Hline. unfold storeLine.
  by rewrite (proj2 (Index_byte_none line EQ) Hline).
Qed.

Lemma storeLine_inl (line : gostring) (ifs ifs' : IniFileSettings) :
  storeLine line ifs = inl ifs' →
  ∃ pre post, line = pre ++ EQ :: post ∧ (EQ ∉ pre)
    ∧ ifs' = {| data := <[strings.TrimSpace pre := strings.TrimSpace post]> (data ifs) |}.
Proof.
  destruct (decide (EQ ∈ line)) as [Hin|Hout].
  - apply list_elem_of_split_l in Hin as (pre & post & -> & Hpre).
    rewrite storeLine_split by done. intros [= <-]. eauto.
  - by rewrite storeLine_missing.
Qed.


(** ** Loading a text *)

Lemma storeLines_app (good rest : list gostring) (final : option Error)
    (ifs : IniFileSettings) :
  storeLines (good ++ rest) final ifs
  = match storeLines good None ifs with
    | (ifs', None) => storeLines rest final ifs'
    | (ifs', Some err) => (ifs', Some err)
    end.
Proof.
  revert ifs. induction good as [|l good IH]; intros ifs; simpl; [done|].
  destruct (storeLine l ifs) as [ifs'|err]; [apply IH|done].
Qed.

Lemma storeLines_good (good : list gostring) (final : option Error)
    (ifs : IniFileSettings) :
  Forall (λ l, EQ ∈ l) good → (storeLines good final ifs).2 = final.
Proof.
  intros Hgood. revert ifs. induction Hgood as [|l good Hl _ IH]; intros ifs; simpl.
  - done.
  - apply list_elem_of_split_l in Hl as (pre & post & -> & Hpre).
    rewrite storeLine_split by done. apply IH.
Qed.


Section loop_facts.
Local Open Scope nat_scope.
Local Opaque bufio.defaultBufSize.

Lemma textOf_cons l lines tail :
  textOf (l :: lines) tail = l ++ LF :: textOf lines tail.
Proof.
  unfold textOf. simpl. rewrite <- !(assoc_L (++)). done.
Qed.

Lemma linesRead_length lines tail :
  length (linesRead lines tail) ≤ length (textOf lines tail).
Proof.
  assert (Hread : length (linesRead lines tail) ≤ length lines + length tail).
  { unfold linesRead. rewrite length_app, length_fmap.
    destruct tail; simpl; lia. }
  assert (Htext : length lines + length tail ≤ length (textOf lines tail)).
  { clear Hread. induction lines as [|l lines IH].
    - unfold textOf. simpl. lia.
    - rewrite textOf_cons, length_app. simpl. lia. }
  lia.
Qed.

(** The outer loop of Load stores the lines of the stream one after the
    other, stops at the first one it rejects and otherwise ends as the stream
    does. *)
Lemma loadLoop_linesOf fuel b ifs :
  length (bufio.rd_pending b) < fuel →
  loadLoop fuel b ifs
  = Some (storeLines (linesOf fuel b) (endOfStream (bufio.rd_err b)) ifs).
Proof.
  revert b ifs. induction fuel as [|fuel IH]; intros b ifs Hfuel; [lia|].
  cbn [loadLoop linesOf].
  destruct (readLineBytes_ends (S (length (bufio.rd_pending b))) b [])
    as (out & -> & Hout); [lia|apply not_elem_of_nil|].
  destruct out as [line b'|err]; [|by subst err].
  destruct Hout as (_ & Hlen & Herr). cbn [storeLines].
  destruct (storeLine line ifs) as [ifs'|err]; [|done].
  rewrite <- Herr. apply IH. lia.
Qed.

(** The lines of a text whose last part fits the buffer: every line that a
    line feed ends, without the CR of a CR LF, and then the last part. *)
Lemma linesOf_text fuel lines tail e :
  Forall (λ l, LF ∉ l) lines → LF ∉ tail →
  length tail < bufio.defaultBufSize →
  length (linesRead lines tail) < fuel →
  linesOf fuel (bufio.mkReader (textOf lines tail) e) = linesRead lines tail.
Proof.
  intros Hlines Htail Hshort. pose proof defaultBufSize_ge as Hsz.
  revert fuel.
  induction Hlines as [|l lines Hl _ IH]; intros fuel Hfuel.
  - unfold linesRead, textOf in *. simpl in *.
    destruct fuel as [|fuel]; [lia|]. cbn [linesOf bufio.rd_pending].
    rewrite readLineBytes_tail by (done || lia).
    destruct tail as [|c tail]; [done|]. simpl in *.
    destruct fuel as [|fuel]; [lia|]. cbn [linesOf bufio.rd_pending].
    by rewrite readLineBytes_tail
      by (apply not_elem_of_nil || (simpl; lia)).
  - rewrite textOf_cons. unfold linesRead in *. simpl in *.
    destruct fuel as [|fuel]; [lia|]. cbn [linesOf bufio.rd_pending].
    rewrite readLineBytes_line by (done || rewrite length_app; lia).
    simpl. f_equal. apply IH. exact (proj2 (Nat.succ_lt_mono _ _) Hfuel).
Qed.

Lemma fileLines_textOf lines tail :
  Forall (λ l, LF ∉ l) lines → LF ∉ tail →
  length tail < bufio.defaultBufSize →
  fileLines (textOf lines tail) = linesRead lines tail.
Proof.
  intros Hlines Htail Hshort. apply linesOf_text; [done..|].
  pose proof (linesRead_length lines tail). lia.
Qed.

(** The loop of Load ends for every stream. *)
Lemma loadLoop_ends fuel b ifs :
  length (bufio.rd_pending b) < fuel → is_Some (loadLoop fuel b ifs).
Proof.
  revert b ifs. induction fuel as [|fuel IH]; intros b ifs Hfuel; [lia|].
  cbn [loadLoop].
  destruct (readLineBytes_ends (S (length (bufio.rd_pending b))) b [])
    as (out & -> & Hout); [lia|apply not_elem_of_nil|].
  destruct out as [line b'|err]; [|done].
  destruct Hout as (_ & Hlen & _).
  destruct (storeLine line ifs); [|done]. apply IH. lia.
Qed.

End loop_facts.

(** ** Load *)

Section Load_facts.
Local Open Scope nat_scope.
Local Opaque bufio.defaultBufSize.

(** Load returns for every environment and store. *)
Lemma Load_returns (w : World) (ifs : IniFileSettings) : is_Some (Load w ifs).
Proof.
  unfold Load. destruct (fileExists w) as [[|] [err|]]; try done.
  unfold withFile. destruct (filePath w) as [path _].
  destruct (w_Split w path) as [dirPath _].
  destruct (os.MkdirAll w dirPath 420); [done|].
  destruct (os.OpenFile w path os.O_RDONLY 420) as [w' [file|err]]; [|done].
  destruct (loadLoop_ends
              (S (length (bufio.rd_pending (bufio.NewReader w' file))))
              (bufio.NewReader w' file) ifs) as [[ifs' err] ->]; [lia|done].
Qed.

(** Where the file is present and can be opened, Load stores the lines of
    the stream one after the other up to the first one without '=', and
    ends as the stream does. *)
Lemma Load_stream (w : World) (path content : gostring) (ifs : IniFileSettings) :
  w_statFault w = None → w_mkdirFault w = None → w_openFault w = None →
  filePath w = (path, None) → w_files w !! path = Some content →
  let reader := bufio.NewReader w (os.mkFile path os.O_RDONLY) in
  let lines := linesOf (S (length (bufio.rd_pending reader))) reader in
  Load w ifs
  = Some (w, (storeLines lines (endOfStream (bufio.rd_err reader)) ifs).1,
             (storeLines lines (endOfStream (bufio.rd_err reader)) ifs).2).
Proof.
  intros Hstat Hmkdir Hopen Hpath Hfile reader lines.
  unfold Load, fileExists, os.Stat. rewrite Hpath, Hstat, Hfile.
  unfold withFile, os.MkdirAll. rewrite Hpath, Hmkdir.
  destruct (w_Split w path) as [dirPath _].
  unfold os.OpenFile. rewrite Hopen, Hfile.
  change (Z.testbit os.O_RDONLY 9) with false. cbv iota.
  fold reader. rewrite loadLoop_linesOf by lia. fold lines.
  by destruct (storeLines lines (endOfStream (bufio.rd_err reader)) ifs).
Qed.

(** Where no system call fails, Load stores the lines of the file up to the
    first one without '='. *)
Lemma Load_lines (w : World) (path content : gostring) (ifs : IniFileSettings) :
  faultless w → filePath w = (path, None) →
  w_files w !! path = Some content →
  Load w ifs
  = Some (w, (storeLines (fileLines content) None ifs).1,
             (storeLines (fileLines content) None ifs).2).
Proof.
  intros (Hstat & Hmkdir & Hopen & Hread & _) Hpath Hfile.
  pose proof (Load_stream w path content ifs Hstat Hmkdir Hopen Hpath Hfile)
    as Hload.
  cbv zeta in Hload. rewrite Hload.
  unfold bufio.NewReader. cbn [os.f_name]. by rewrite Hfile, Hread.
Qed.

Lemma Load_text (w : World) (path : gostring) (lines : list gostring)
    (tail : gostring) (ifs : IniFileSettings) :
  faultless w → filePath w = (path, None) →
  w_files w !! path = Some (textOf lines tail) →
  Forall (λ l, LF ∉ l) lines → LF ∉ tail →
  length tail < bufio.defaultBufSize →
  Load w ifs
  = Some (w, (storeLines (linesRead lines tail) None ifs).1,
             (storeLines (linesRead lines tail) None ifs).2).
Proof.
  intros Hw Hpath Hfile Hlines Htail Hshort.
  rewrite (Load_lines w path (textOf lines tail)) by done.
  by rewrite fileLines_textOf.
Qed.

(** The failures of the system calls made after [fileExists] reach the
    caller wrapped, as errors of kind IOError. *)
Lemma Load_MkdirAll_failure (w : World) (ifs : IniFileSettings) (e : Error) :
  fileExists w = (true, None) → w_mkdirFault w = Some e →
  Load w ifs = Some (w, ifs, Some (wrapError e)) ∧ IOError (wrapError e) = true.
Proof.
  intros Hexists Hmkdir. unfold Load, withFile, os.MkdirAll.
  rewrite Hexists, Hmkdir. destruct (filePath w) as [path _].
  by destruct (w_Split w path).
Qed.

Lemma Load_OpenFile_failure (w : World) (ifs : IniFileSettings) (e : Error) :
  fileExists w = (true, None) → w_mkdirFault w = None → w_openFault w = Some e →
  Load w ifs = Some (w, ifs, Some (wrapError e)) ∧ IOError (wrapError e) = true.
Proof.
  intros Hexists Hmkdir Hopen. unfold Load, withFile, os.MkdirAll, os.OpenFile.
  rewrite Hexists, Hmkdir, Hopen. destruct (filePath w) as [path _].
  by destruct (w_Split w path).
Qed.

Lemma Load_read_failure (w : World) (path content : gostring)
    (lines : list gostring) (n : nat) (e : Error) (ifs : IniFileSettings) :
  w_statFault w = None → w_mkdirFault w = None → w_openFault w = None →
  filePath w = (path, None) → w_files w !! path = Some content →
  w_readFault w = Some (n, e) → e ≠ EOF →
  take n content = textOf lines [] →
  Forall (λ l, LF ∉ l) lines → Forall (λ l, EQ ∈ l) lines →
  ∃ ifs', Load w ifs = Some (w, ifs', Some (wrapError e))
          ∧ IOError (wrapError e) = true.
Proof.
  intros Hstat Hmkdir Hopen Hpath Hfile Hread He Htake Hlines Hgood.
  pose proof defaultBufSize_ge as Hsz.
  pose proof (Load_stream w path content ifs Hstat Hmkdir Hopen Hpath Hfile)
    as Hload.
  cbv zeta in Hload. rewrite Hload. clear Hload.
  unfold bufio.NewReader. cbn [os.f_name]. rewrite Hfile, Hread.
  cbn [default from_option id bufio.rd_pending bufio.rd_err].
  rewrite Htake, linesOf_text; [|done|apply not_elem_of_nil|simpl; lia|].
  - eexists. split; [|done]. rewrite storeLines_good.
    + unfold endOfStream. by rewrite bool_decide_eq_false_2.
    + unfold linesRead. rewrite (right_id_L [] (++)).
      apply Forall_fmap. eapply Forall_impl; [exact Hgood|].
      intros l Hl. simpl. unfold bufio.dropCR. case_bool_decide as Hcr; [|done].
      apply last_Some in Hcr as [l' ->].
      rewrite length_app, Nat.add_sub, take_app_length.
      rewrite elem_of_app, elem_of_cons, elem_of_nil in Hl.
      destruct Hl as [?|[?|[]]]; done.
  - pose proof (linesRead_length lines []). lia.
Qed.

End Load_facts.



Lemma storeLines_keeps (lines : list gostring) (final : option Error)
    (ifs : IniFileSettings) (key : gostring) :
  is_Some (data ifs !! key) →
  is_Some (data (storeLines lines final ifs).1 !! key).
Proof.
  revert ifs. induction lines as [|l lines IH]; intros ifs Hkey; simpl; [done|].
  destruct (storeLine l ifs) as [ifs'|err] eqn:E; [|done].
  apply IH. apply storeLine_inl in E as (pre & post & _ & _ & ->). simpl.
  rewrite lookup_insert. case_decide; [by eexists|done].
Qed.

Lemma storeLines_other (lines : list gostring) (final : option Error)
    (ifs : IniFileSettings) (key : gostring) :
  (∀ pre post, pre ++ EQ :: post ∈ lines → EQ ∉ pre →
               strings.TrimSpace pre ≠ key) →
  data (storeLines lines final ifs).1 !! key = data ifs !! key.
Proof.
  revert ifs. induction lines as [|l lines IH]; intros ifs Hother; simpl; [done|].
  destruct (storeLine l ifs) as [ifs'|err] eqn:E; [|done].
  rewrite IH by (intros pre post Hin; apply (Hother pre post); by right).
  apply storeLine_inl in E as (pre & post & -> & Hpre & ->). simpl.
  apply lookup_insert_ne. apply (Hother pre post); [left|done].
Qed.




(** C6 (as amended): when Load fails with ParseError on a line, the lines
    before it have been stored and stay stored: the store is the one left by
    storing them in order, so each of their keys is present, with the value of
    the last of them that has that key, and no earlier key is lost. *)
Theorem C6_earlier_lines_stay_stored
    (w : World) (path content : gostring)
    (good : list gostring) (bad : gostring) (rest : list gostring)
    (ifs : IniFileSettings) :
  faultless w → filePath w = (path, None) →
  w_files w !! path = Some content →
  fileLines content = good ++ bad :: rest →
  Forall (λ l, EQ ∈ l) good → EQ ∉ bad →
  ∃ ifs',
    Load w ifs = Some (w, ifs', Some ParseError)
    ∧ storeLines good None ifs = (ifs', None)
    ∧ (∀ g1 g2 pre post,
         good = g1 ++ (pre ++ EQ :: post) :: g2 → EQ ∉ pre →
         (Get ifs' (strings.TrimSpace pre)).2 = true
         ∧ ((∀ pre' post', pre' ++ EQ :: post' ∈ g2 → EQ ∉ pre' →
                           strings.TrimSpace pre' ≠ strings.TrimSpace pre) →
            Get ifs' (strings.TrimSpace pre) = (strings.TrimSpace post, true)))
    ∧ (∀ key, (Get ifs key).2 = true → (Get ifs' key).2 = true).
Proof.
  intros Hw Hpath Hfile Hsplit Hgood Hbad.
  rewrite (Load_lines w path content ifs) by done.
  rewrite Hsplit, storeLines_app.
  pose proof (storeLines_good good None ifs Hgood) as Hnone.
  destruct (storeLines good None ifs) as [ifs' err] eqn:Hstore.
  simpl in Hnone. subst err. simpl. rewrite storeLine_missing by done. simpl.
  exists ifs'. split; [done|]. split; [done|].
  assert (Hfound : ∀ s key, is_Some (data s !! key) ↔ (Get s key).2 = true).
  { intros s key. unfold Get. destruct (data s !! key); simpl.
    - split; [done|by eexists].
    - split; [by intros [? ?]|done]. }
  split.
  - intros g1 g2 pre post -> Hpre.
    rewrite storeLines_app in Hstore.
    pose proof (storeLines_good g1 None ifs) as Hg1.
    destruct (storeLines g1 None ifs) as [ifs1 err1].
    apply Forall_app in Hgood as [Hgood1 Hgood2].
    simpl in Hg1. rewrite Hg1 in Hstore by done.
    simpl in Hstore. rewrite storeLine_split in Hstore by done.
    assert (Hifs' : ifs' = (storeLines g2 None
              {| data := <[strings.TrimSpace pre := strings.TrimSpace post]>
                           (data ifs1) |}).1) by by rewrite Hstore.
    split.
    + apply Hfound. rewrite Hifs'. apply storeLines_keeps. simpl.
      rewrite lookup_insert_eq. by eexists.
    + intros Hlast. unfold Get. rewrite Hifs', storeLines_other by done.
      simpl. by rewrite lookup_insert_eq.
  - intros key Hkey. apply Hfound. apply Hfound in Hkey.
    replace ifs' with (storeLines good None ifs).1 by by rewrite Hstore.
    by apply storeLines_keeps.
Qed.

Lemma C6_earlier_lines_stay_stored_witness :
  ∃ ifs',
    Load (sampleWorld {[ samplePath :=
            textOf ["a=b" : gostring; "bad" : gostring; "x=y" : gostring] [] ]})
      NewIniFileSettings
    = Some (sampleWorld {[ samplePath :=
              textOf ["a=b" : gostring; "bad" : gostring; "x=y" : gostring] [] ]},
            ifs', Some ParseError)
    ∧ storeLines ["a=b" : gostring] None NewIniFileSettings = (ifs', None)
    ∧ (∀ g1 g2 pre post,
         ["a=b" : gostring] = g1 ++ (pre ++ EQ :: post) :: g2 → EQ ∉ pre →
         (Get ifs' (strings.TrimSpace pre)).2 = true
         ∧ ((∀ pre' post', pre' ++ EQ :: post' ∈ g2 → EQ ∉ pre' →
                           strings.TrimSpace pre' ≠ strings.TrimSpace pre) →
            Get ifs' (strings.TrimSpace pre) = (strings.TrimSpace post, true)))
    ∧ (∀ key, (Get NewIniFileSettings key).2 = true → (Get ifs' key).2 = true).
Proof.
  apply (C6_earlier_lines_stay_stored _ samplePath
           (textOf ["a=b" : gostring; "bad" : gostring; "x=y" : gostring] [])
           ["a=b" : gostring] "bad" ["x=y" : gostring]).
  - repeat split.
  - reflexivity.
  - vm_compute. reflexivity.
  - vm_compute. reflexivity.
  - by_evaluation.
  - by_evaluation.
Defined.

(** C6 as stated fails: Load fails on the second line of this file, and the
    entry of its first line is in the store afterwards. *)
Lemma C6_partial_data_counterexample :
  ∃ w' ifs',
    Load (sampleWorld {[ samplePath := textOf ["a=b" : gostring; "bad" : gostring] [] ]})
      NewIniFileSettings
    = Some (w', ifs', Some ParseError)
    ∧ Get ifs' "a" = ("b" : gostring, true).
Proof.
  eexists _, _. split; vm_compute; reflexivity.
Qed.

(** C7: where the backing file does not exist, Load succeeds and leaves the
    store as it was. *)
Theorem C7_Load_without_file (w : World) (path : gostring) (ifs : IniFileSettings) :
  filePath w = (path, None) → w_files w !! path = None →
  Load w ifs = Some (w, ifs, None).
Proof.
  intros Hpath Hfile. unfold Load, fileExists, os.Stat.
  rewrite Hpath, Hfile. by destruct (w_statFault w).
Qed.

Lemma C7_Load_without_file_witness :
  Load (sampleWorld ∅) (Put NewIniFileSettings "name" "walk").1
  = Some (sampleWorld ∅, (Put NewIniFileSettings "name" "walk").1, None).
Proof.
  apply (C7_Load_without_file _ samplePath); reflexivity.
Defined.

(** C8: the file is present and [os.Stat] fails with a permission error;
    Load reports success and reads nothing, where the claim has it fail with
    IOError. *)
Theorem C8_Stat_failure_is_swallowed :
  let w := statDenied {[ samplePath := textOf ["a=b" : gostring] [] ]} in
  w_files w !! samplePath = Some (textOf ["a=b" : gostring] [])
  ∧ os.Stat w samplePath = Some EACCES
  ∧ Load w NewIniFileSettings = Some (w, NewIniFileSettings, None).
Proof.
  split; [|split]; vm_compute; reflexivity.
Qed.

(** ** Writing *)

Section writer_facts.
Local Open Scope nat_scope.
Local Opaque bufio.defaultBufSize.
Implicit Types (w : World) (b : bufio.Writer) (name c s : gostring).

Lemma Write_append w name c file p :
  w_writeFault w = None → os.f_name file = name →
  os.Write (fileSet w name c) file (length c) p
  = (fileSet w name (c ++ p), length p, None).
Proof.
  intros Hfault <-. unfold os.Write, fileSet. simpl. rewrite Hfault.
  rewrite lookup_insert_eq. simpl.
  rewrite take_ge, drop_ge, (right_id_L [] (++)) by lia.
  unfold setFiles. simpl. by rewrite insert_insert_eq.
Qed.

Lemma Flush_ok w name c b :
  w_writeFault w = None → okWriter b name c →
  ∃ b', bufio.Flush (fileSet w name c) b
        = (fileSet w name (c ++ bufio.wr_buf b), b', None)
        ∧ okWriter b' name (c ++ bufio.wr_buf b)
        ∧ bufio.wr_buf b' = [].
Proof.
  intros Hfault (Hname & Hoff & Herr). unfold bufio.Flush. rewrite Herr.
  destruct (bufio.wr_buf b) as [|x buf] eqn:Hbuf.
  - exists b. rewrite (right_id_L [] (++)). done.
  - rewrite Hoff, (Write_append w name c) by done.
    eexists. split; [done|]. split; [|done].
    split; [done|]. split; [|done]. simpl. rewrite length_app. simpl. lia.
Qed.

Lemma writeLoop_ok fuel w name c b s :
  w_writeFault w = None → okWriter b name c →
  length s + (if decide (bufio.Available b = 0) then 1 else 0) < fuel →
  ∃ c' b' s',
    bufio.writeLoop fuel (fileSet w name c) b s = Some (fileSet w name c', b', s')
    ∧ okWriter b' name c'
    ∧ c' ++ bufio.wr_buf b' ++ s' = c ++ bufio.wr_buf b ++ s.
Proof.
  intros Hfault. pose proof defaultBufSize_ge as Hsz.
  revert c b s. induction fuel as [|fuel IH]; intros c b s Hok Hfuel; [lia|].
  cbn [bufio.writeLoop].
  destruct (bool_decide (bufio.Available b < length s)
            && bool_decide (bufio.wr_err b = None)) eqn:Hcond.
  - apply andb_true_iff in Hcond as [Hfit _]. apply bool_decide_eq_true in Hfit.
    set (n := bufio.Available b) in *.
    set (b1 := bufio.mkWriter (bufio.wr_file b) (bufio.wr_off b)
                 (bufio.wr_buf b ++ take n s) (bufio.wr_err b)).
    destruct (Flush_ok w name c b1 Hfault) as (b2 & Hflush & Hok2 & Hbuf2);
      [by destruct Hok as (? & ? & ?)|].
    rewrite Hflush.
    destruct (IH (c ++ bufio.wr_buf b1) b2 (drop n s) Hok2)
      as (c' & b' & s' & Hloop & Hok' & Heq).
    { unfold bufio.Available. rewrite Hbuf2, length_drop. simpl.
      rewrite decide_False by lia. case_decide; lia. }
    exists c', b', s'. split; [done|]. split; [done|].
    rewrite Heq, Hbuf2. subst b1. simpl.
    rewrite <- !(assoc_L (++)). by rewrite take_drop.
  - exists c, b, s. done.
Qed.

Lemma WriteString_ok w name c b s :
  w_writeFault w = None → okWriter b name c →
  ∃ c' b',
    bufio.WriteString (fileSet w name c) b s = Some (fileSet w name c', b', None)
    ∧ okWriter b' name c'
    ∧ c' ++ bufio.wr_buf b' = c ++ bufio.wr_buf b ++ s.
Proof.
  intros Hfault Hok. unfold bufio.WriteString.
  destruct (writeLoop_ok (length s + 2) w name c b s Hfault Hok)
    as (c' & b' & s' & -> & (Hname & Hoff & Herr) & Heq);
    [case_decide; lia|].
  rewrite Herr. eexists c', _. split; [done|]. split; [done|].
  simpl. done.
Qed.

Lemma writeEntries_ok entries w name c b :
  w_writeFault w = None → okWriter b name c →
  ∃ c' b',
    writeEntries entries (fileSet w name c) b = Some (fileSet w name c', b', None)
    ∧ okWriter b' name c'
    ∧ c' ++ bufio.wr_buf b' = c ++ bufio.wr_buf b ++ savedText entries.
Proof.
  intros Hfault. revert c b.
  induction entries as [|[key val] entries IH]; intros c b Hok.
  - exists c, b. split; [done|]. split; [done|].
    unfold savedText. simpl. by rewrite (right_id_L [] (++)).
  - cbn [writeEntries].
    destruct (WriteString_ok w name c b (entryLine key val) Hfault Hok)
      as (c1 & b1 & -> & Hok1 & Heq1).
    destruct (IH c1 b1 Hok1) as (c' & b' & -> & Hok' & Heq').
    exists c', b'. split; [done|]. split; [done|].
    rewrite Heq', (assoc_L (++) c1), Heq1. unfold savedText. simpl.
    by rewrite <- !(assoc_L (++)).
Qed.

(** Where no system call fails, Save succeeds and leaves in the file the
    lines of the entries, in the order of iteration. *)
Lemma Save_ok entries w path (ifs : IniFileSettings) :
  faultless w → filePath w = (path, None) →
  Save entries w ifs = Some (fileSet w path (savedText entries), ifs, None).
Proof.
  intros (_ & Hmkdir & Hopen & _ & Hwrite) Hpath.
  unfold Save, withFile, os.MkdirAll. rewrite Hpath, Hmkdir.
  destruct (w_Split w path) as [dirPath _].
  assert (Hopened :
    os.OpenFile w path (Z.lor (Z.lor os.O_CREATE os.O_TRUNC) os.O_WRONLY) 420
    = (fileSet w path [],
       inl (os.mkFile path (Z.lor (Z.lor os.O_CREATE os.O_TRUNC) os.O_WRONLY)))).
  { unfold os.OpenFile. rewrite Hopen.
    change (Z.testbit (Z.lor (Z.lor os.O_CREATE os.O_TRUNC) os.O_WRONLY) 9)
      with true.
    change (Z.testbit (Z.lor (Z.lor os.O_CREATE os.O_TRUNC) os.O_WRONLY) 6)
      with true.
    by destruct (w_files w !! path). }
  rewrite Hopened.
  destruct (writeEntries_ok entries w path [] (bufio.NewWriter
              (os.mkFile path (Z.lor (Z.lor os.O_CREATE os.O_TRUNC) os.O_WRONLY)))
              Hwrite)
    as (c' & b' & -> & Hok' & Heq'); [done|].
  destruct (Flush_ok w path c' b' Hwrite Hok') as (b2 & -> & _ & _).
  simpl in Heq'. by rewrite Heq'.
Qed.

(** Whatever the failures, the loops of the writer end and Save returns. *)
Lemma Flush_cases w b w' b' err :
  bufio.Flush w b = (w', b', err) →
  bufio.wr_err b = None → bufio.wr_buf b ≠ [] →
  bufio.wr_err b' ≠ None ∨ bufio.wr_buf b' = [].
Proof.
  unfold bufio.Flush. intros Hflush Herr Hbuf. rewrite Herr in Hflush.
  destruct (bufio.wr_buf b) as [|x buf]; [done|].
  destruct (os.Write w (bufio.wr_file b) (bufio.wr_off b) (x :: buf))
    as [[w1 n] [e|]]; injection Hflush as <- <- <-; simpl; [by left|by right].
Qed.

Lemma writeLoop_ends fuel w b s :
  (bufio.wr_err b ≠ None ∧ 0 < fuel)
  ∨ length s + (if decide (bufio.Available b = 0) then 1 else 0) < fuel →
  is_Some (bufio.writeLoop fuel w b s).
Proof.
  pose proof defaultBufSize_ge as Hsz.
  revert w b s. induction fuel as [|fuel IH]; intros w b s Hfuel; [lia|].
  cbn [bufio.writeLoop].
  destruct (bool_decide (bufio.Available b < length s)
            && bool_decide (bufio.wr_err b = None)) eqn:Hcond; [|done].
  apply andb_true_iff in Hcond as [Hfit Herr].
  apply bool_decide_eq_true in Hfit. apply bool_decide_eq_true in Herr.
  destruct Hfuel as [[Hne _]|Hfuel]; [done|].
  set (n := bufio.Available b) in *.
  set (b1 := bufio.mkWriter (bufio.wr_file b) (bufio.wr_off b)
               (bufio.wr_buf b ++ take n s) (bufio.wr_err b)).
  destruct (bufio.Flush w b1) as [[w2 b2] err2] eqn:Hflush.
  apply Flush_cases in Hflush as [Hfail|Hempty]; [| |done|].
  - apply IH. left. split; [done|]. destruct (decide (n = 0)); lia.
  - apply IH. right. unfold bufio.Available. rewrite Hempty, length_drop. simpl.
    rewrite decide_False by lia. destruct (decide (n = 0)); lia.
  - subst b1. simpl. intros Happ. apply (f_equal length) in Happ.
    rewrite length_app, length_take in Happ. simpl in Happ.
    unfold bufio.Available in n. lia.
Qed.

Lemma writeEntries_returns entries w b : is_Some (writeEntries entries w b).
Proof.
  revert w b. induction entries as [|[key val] entries IH]; intros w b; [done|].
  cbn [writeEntries]. unfold bufio.WriteString.
  destruct (writeLoop_ends (length (entryLine key val) + 2) w b (entryLine key val))
    as [[[w1 b1] s1] ->]; [right; case_decide; lia|].
  destruct (bufio.wr_err b1); [done|]. apply IH.
Qed.

Lemma Save_returns entries w (ifs : IniFileSettings) : is_Some (Save entries w ifs).
Proof.
  unfold Save, withFile. destruct (filePath w) as [path _].
  destruct (w_Split w path) as [dirPath _].
  destruct (os.MkdirAll w dirPath 420); [done|].
  destruct (os.OpenFile w path _ 420) as [w' [file|err]]; [|done].
  destruct (writeEntries_returns entries w' (bufio.NewWriter file))
    as [[[w1 b1] [err|]] ->]; [done|].
  by destruct (bufio.Flush w1 b1) as [[w2 b2] err2].
Qed.

End writer_facts.

(** ** Save, then Load *)

Lemma savedText_textOf (entries : list (gostring * gostring)) :
  savedText entries = textOf ((λ kv, kv.1 ++ EQ :: kv.2) <$> entries) [].
Proof.
  unfold savedText, textOf. rewrite (right_id_L [] (++)). f_equal.
  rewrite <- list_fmap_compose. apply list_fmap_ext. intros i kv _. simpl.
  unfold entryLine. by rewrite <- !(assoc_L (++)).
Qed.

(** A line of a valid entry without surrounding white space is read back as
    it was written and gives the entry back. *)
Lemma storeLines_entries (entries : list (gostring * gostring))
    (final : option Error) (ifs : IniFileSettings) :
  Forall (λ kv, (EQ ∉ kv.1) ∧ noSurroundingSpace kv.1 ∧ noSurroundingSpace kv.2)
    entries →
  storeLines ((λ kv, kv.1 ++ EQ :: kv.2) <$> entries) final ifs
  = ({| data := foldl (λ m kv, <[kv.1 := kv.2]> m) (data ifs) entries |}, final).
Proof.
  intros Hentries. revert ifs.
  induction Hentries as [|[key val] entries (Hkey & Hk & Hv) _ IH]; intros ifs.
  - by destruct ifs.
  - simpl in *. rewrite storeLine_split by done.
    rewrite !TrimSpace_id by done. by rewrite IH.
Qed.

Lemma foldl_insert_list_to_map (entries : list (gostring * gostring))
    (m : gmap gostring gostring) :
  NoDup (entries.*1) →
  foldl (λ m kv, <[kv.1 := kv.2]> m) m entries = list_to_map entries ∪ m.
Proof.
  revert m. induction entries as [|[key val] entries IH]; intros m Hnodup; simpl.
  - by rewrite (left_id_L ∅ (∪)).
  - apply NoDup_cons in Hnodup as [Hkey Hnodup].
    rewrite IH by done. rewrite <- insert_union_l.
    symmetry. apply insert_union_r. by apply not_elem_of_list_to_map_1.
Qed.

Lemma dropCR_entry (key val : gostring) :
  noSurroundingSpace val → bufio.dropCR (key ++ EQ :: val) = key ++ EQ :: val.
Proof.
  intros Hval. apply dropCR_no_CR.
  rewrite last_app, last_cons. destruct (last val) as [c|] eqn:Hlast; [|done].
  intros [= ->]. apply last_Some in Hlast as [val' ->].
  destruct (Hval [CR]) as [_ Hsuffix].
  - by_evaluation.
  - apply Hsuffix. by exists val'.
Qed.

(** C3: a store whose keys and values are valid and carry no leading or
    trailing white space is given back by Save followed by Load into a new
    store, whatever the order in which Save iterates over the entries. *)
Theorem C3_Save_then_Load_round_trip
    (w : World) (path : gostring) (ifs : IniFileSettings)
    (entries : list (gostring * gostring)) :
  faultless w → filePath w = (path, None) →
  rangeOrder ifs entries →
  (∀ key val, data ifs !! key = Some val →
     validKey key ∧ validValue val
     ∧ noSurroundingSpace key ∧ noSurroundingSpace val) →
  ∃ w' ifs',
    Save entries w ifs = Some (w', ifs, None)
    ∧ Load w' NewIniFileSettings = Some (w', ifs', None)
    ∧ data ifs' = data ifs.
Proof.
  intros Hw Hpath Horder Hvalid.
  assert (Hentries : ∀ kv, kv ∈ entries →
            validKey kv.1 ∧ validValue kv.2
            ∧ noSurroundingSpace kv.1 ∧ noSurroundingSpace kv.2).
  { intros [key val] Hin. apply Hvalid. apply elem_of_map_to_list.
    unfold rangeOrder in Horder. by rewrite <- Horder. }
  exists (fileSet w path (savedText entries)).
  eexists. split; [by apply Save_ok|].
  set (lines := (λ kv : gostring * gostring, kv.1 ++ EQ :: kv.2) <$> entries).
  assert (Hload := Load_text (fileSet w path (savedText entries)) path lines []
                     NewIniFileSettings).
  assert (Hread : linesRead lines [] = lines).
  { unfold linesRead. rewrite (right_id_L [] (++)). subst lines.
    rewrite <- list_fmap_compose. apply list_fmap_ext. intros i kv Hin.
    apply list_elem_of_lookup_2 in Hin. simpl.
    apply dropCR_entry. by apply (Hentries kv). }
  rewrite Hread in Hload. subst lines.
  rewrite storeLines_entries in Hload.
  - simpl in Hload. rewrite Hload; clear Hload.
    + split; [done|]. simpl.
      assert (Hnodup : NoDup (entries.*1)).
      { unfold rangeOrder in Horder. rewrite Horder.
        apply NoDup_fst_map_to_list. }
      rewrite foldl_insert_list_to_map, (right_id_L ∅ (∪)) by done.
      rewrite (list_to_map_proper entries (map_to_list (data ifs))) by done.
      apply list_to_map_to_list.
    + by destruct Hw as (? & ? & ? & ? & ?).
    + done.
    + unfold fileSet. simpl. rewrite lookup_insert_eq. by rewrite savedText_textOf.
    + apply Forall_forall. intros l Hl.
      apply list_elem_of_fmap in Hl as (kv & -> & Hin).
      destruct (Hentries _ Hin) as ((_ & _ & HkLF) & (_ & HvLF) & _).
      rewrite elem_of_app, elem_of_cons. intros [?|[?|?]]; done.
    + apply not_elem_of_nil.
    + unfold bufio.defaultBufSize. simpl. lia.
  - apply Forall_forall. intros kv Hin.
    destruct (Hentries kv Hin) as ((HkEQ & _) & _ & Hk & Hv). done.
Qed.

Lemma C3_Save_then_Load_round_trip_witness :
  ∃ w' ifs',
    Save (map_to_list (data sampleStore)) (sampleWorld ∅) sampleStore
    = Some (w', sampleStore, None)
    ∧ Load w' NewIniFileSettings = Some (w', ifs', None)
    ∧ data ifs' = data sampleStore.
Proof.
  apply (C3_Save_then_Load_round_trip (sampleWorld ∅) samplePath).
  - repeat split.
  - reflexivity.
  - unfold rangeOrder. reflexivity.
  - intros key val Hlookup.
    refine (map_Forall_lookup_1
              (λ k v, validKey k ∧ validValue v
                      ∧ noSurroundingSpace k ∧ noSurroundingSpace v)
              (data sampleStore) key val _ Hlookup).
    by_evaluation.
Defined.

(** ** The invariants of the store *)






Lemma Save_keeps_store (entries : list (gostring * gostring)) (w w' : World)
    (ifs ifs' : IniFileSettings) (err : option Error) :
  Save entries w ifs = Some (w', ifs', err) → ifs' = ifs.
Proof.
  unfold Save, withFile. destruct (filePath w) as [path _].
  destruct (w_Split w path) as [dirPath _].
  destruct (os.MkdirAll w dirPath 420); [by intros [= <- <- <-]|].
  destruct (os.OpenFile w path _ 420) as [w1 [file|e]]; [|by intros [= <- <- <-]].
  destruct (writeEntries entries w1 (bufio.NewWriter file))
    as [[[w2 b2] [e|]]|]; [by intros [= <- <- <-]| |done].
  destruct (bufio.Flush w2 b2) as [[w3 b3] e3]. by intros [= <- <- <-].
Qed.




(** ** The tooltip *)

(** C10: RemoveWidget panics for every tooltip and widget, while AddWidget on
    the same tooltip and widget returns without error whenever the window
    system accepts the tool. *)
Theorem C10_RemoveWidget_panics (tt : ToolTip) (widget : Widget) :
  RemoveWidget tt widget = Panics "not implemented"
  ∧ (∀ a : option Error, RemoveWidget tt widget ≠ Returns a)
  ∧ (∀ api text,
       SendMessage api (hWnd (tt_WidgetBase tt)) TTM_ADDTOOL 0
         {| CbSize := sizeofTOOLINFO api;
            UFlags := Z.lor TTF_IDISHWND TTF_SUBCLASS;
            Hwnd := match Parent widget with
                    | Some parent => hWnd parent
                    | None => 0
                    end;
            UId := hWnd (BaseWidget widget);
            LpszText := text |} ≠ FALSE →
       AddWidget api tt widget text = Returns None)
  ∧ (∃ api text, AddWidget api tt widget text = Returns None).
Proof.
  split; [done|]. split; [done|]. split.
  - intros api text Hsent. unfold AddWidget.
    by destruct (Z.eqb_spec
                   (SendMessage api (hWnd (tt_WidgetBase tt)) TTM_ADDTOOL 0
                      {| CbSize := sizeofTOOLINFO api;
                         UFlags := Z.lor TTF_IDISHWND TTF_SUBCLASS;
                         Hwnd := match Parent widget with
                                 | Some parent => hWnd parent
                                 | None => 0
                                 end;
                         UId := hWnd (BaseWidget widget);
                         LpszText := text |}) FALSE).
  - exists {| sizeofTOOLINFO := 48; SendMessage := λ _ _ _ _, 1 |}, [].
    reflexivity.
Qed.

(** ** Worked examples *)

Example TrimSpace_ascii :
  strings.TrimSpace ((" " : gostring) ++ ["009"%char] ++ "a b" ++ [CR; LF])
  = ("a b" : gostring).
Proof. reflexivity. Qed.

(** U+00A0 and U+2028 are white space; a lone continuation byte is not. *)
Example TrimSpace_unicode :
  strings.TrimSpace (["194"; "160"]%char ++ ("x" : gostring) ++ ["226"; "128"; "168"]%char)
  = ("x" : gostring)
  ∧ strings.TrimSpace (["160"%char] ++ ("x" : gostring)) = ["160"%char] ++ ("x" : gostring).
Proof. split; reflexivity. Qed.

(** The first '=' separates; the key and the value are trimmed. *)
Example Load_value_with_equals :
  ∃ w' ifs',
    Load (sampleWorld {[ samplePath := textOf [" a = b=c " : gostring] [] ]})
      NewIniFileSettings
    = Some (w', ifs', None)
    ∧ Get ifs' "a" = ("b=c" : gostring, true).
Proof. eexists _, _. split; vm_compute; reflexivity. Qed.

(** CR LF line ends are accepted. *)
Example Load_CRLF :
  ∃ w' ifs',
    Load (sampleWorld {[ samplePath :=
            textOf [("a=b" : gostring) ++ [CR]; ("c=d" : gostring) ++ [CR]] [] ]})
      NewIniFileSettings
    = Some (w', ifs', None)
    ∧ Get ifs' "a" = ("b" : gostring, true)
    ∧ Get ifs' "c" = ("d" : gostring, true).
Proof. eexists _, _. repeat split; vm_compute; reflexivity. Qed.

(** A line longer than the buffer of the reader is assembled from its
    parts. *)
Example Load_long_line :
  ∃ w' ifs',
    Load (sampleWorld {[ samplePath :=
            textOf [("k=" : gostring) ++ replicate 5000 "v"%char] [] ]})
      NewIniFileSettings
    = Some (w', ifs', None)
    ∧ Get ifs' "k" = (replicate 5000 "v"%char, true).
Proof. eexists _, _. split; vm_compute; reflexivity. Qed.

(** A file that ends, without a line feed, where a full buffer ends: the
    reader hands the buffer out as a prefix of a line and then reports the end
    of the file, on which Load returns without having stored the line. *)
Example Load_full_buffer_tail :
  fileLines (textOf [] (("k=" : gostring) ++ replicate 4094 "v"%char)) = []
  ∧ Load (sampleWorld {[ samplePath :=
            textOf [] (("k=" : gostring) ++ replicate 4094 "v"%char) ]})
      NewIniFileSettings
    = Some (sampleWorld {[ samplePath :=
              textOf [] (("k=" : gostring) ++ replicate 4094 "v"%char) ]},
            NewIniFileSettings, None).
Proof. split; vm_compute; reflexivity. Qed.

(** A read that fails after the first line: the line is stored and the error
    is returned wrapped. *)
Example Load_read_error :
  ∃ w' ifs',
    Load (sampleWorldWith
            {[ samplePath := textOf ["a=b" : gostring; "c=d" : gostring] [] ]}
            None None None (Some (4%nat, Errno 5)) None)
      NewIniFileSettings
    = Some (w', ifs', Some (wrapError (Errno 5)))
    ∧ Get ifs' "a" = ("b" : gostring, true)
    ∧ Get ifs' "c" = ([], false).
Proof. eexists _, _. repeat split; vm_compute; reflexivity. Qed.

(** A file that cannot grow beyond five bytes: the lines fit the buffer of
    the writer, so the failure is met by the final Flush, whose error Save
    returns as it is. *)
Example Save_disk_full :
  ∃ w',
    Save (map_to_list (data sampleStore))
      (sampleWorldWith ∅ None None None None (Some (5%nat, ENOSPC))) sampleStore
    = Some (w', sampleStore, Some ENOSPC)
    ∧ w_files w' !! samplePath = Some ("versi" : gostring)
    ∧ IOError ENOSPC = true.
Proof. eexists. repeat split; vm_compute; reflexivity. Qed.

(** * Further properties of the store *)

(** ** Put *)

(** X1: Put leaves every other key as it was: Get on a key other than the
    one put answers as before, whether the Put was accepted or not. *)
Theorem Put_other_key (ifs : IniFileSettings) (key value key' : gostring) :
  key' ≠ key → Get (Put ifs key value).1 key' = Get ifs key'.
Proof.
  intros Hne. unfold Put.
  destruct ((strings.IndexAny key [EQ; CR; LF] >? -1)
            || (strings.IndexAny value [CR; LF] >? -1)); [done|].
  unfold Get. simpl. by rewrite lookup_insert_ne.
Qed.

Lemma Put_other_key_witness :
  Get (Put sampleStore "name" "x").1 "version" = Get sampleStore "version".
Proof. apply Put_other_key. by_evaluation. Defined.

(** X2: a Put that is rejected leaves the store as it was. *)
Theorem Put_rejected_keeps_store (ifs : IniFileSettings) (key value : gostring) :
  ¬ (validKey key ∧ validValue value) →
  Put ifs key value = (ifs, Some InvalidFormat).
Proof.
  intros Hbad. apply Put_rejects in Hbad. unfold Put. by rewrite Hbad.
Qed.

Lemma Put_rejected_keeps_store_witness :
  Put sampleStore "a=b" "x" = (sampleStore, Some InvalidFormat).
Proof. apply Put_rejected_keeps_store. by_evaluation. Defined.

(** X3: the last accepted Put on a key wins: putting a value after any
    earlier Put on the same key leaves the store that putting it alone
    leaves. *)
Theorem Put_overwrites (ifs : IniFileSettings) (key value1 value2 : gostring) :
  validKey key → validValue value2 →
  (Put (Put ifs key value1).1 key value2).1 = (Put ifs key value2).1.
Proof.
  intros Hkey Hvalue. rewrite !(Put_valid _ key value2) by done. simpl.
  unfold Put.
  destruct ((strings.IndexAny key [EQ; CR; LF] >? -1)
            || (strings.IndexAny value1 [CR; LF] >? -1)); [done|].
  simpl. by rewrite insert_insert_eq.
Qed.

Lemma Put_overwrites_witness :
  (Put (Put NewIniFileSettings "name" "walk").1 "name" "run").1
  = (Put NewIniFileSettings "name" "run").1.
Proof. apply Put_overwrites; by_evaluation. Defined.

(** ** Load *)

(** Storing lines overlays the store with entries that depend on the lines
    alone; none of them carries surrounding white space. *)
Lemma storeLines_overlay (lines : list gostring) (final : option Error) :
  ∃ (A : gmap gostring gostring) (err : option Error),
    (∀ ifs, storeLines lines final ifs = ({| data := A ∪ data ifs |}, err))
    ∧ (err = final ∨ err = Some ParseError)
    ∧ (∀ key val, A !! key = Some val →
                  noSurroundingSpace key ∧ noSurroundingSpace val).
Proof.
  induction lines as [|l lines (A & err & Hstore & Herr & Htrim)].
  - exists ∅, final. split; [|split; [by left|]].
    + intros [m]. simpl. by rewrite (left_id_L ∅ (∪)).
    + intros key val. by rewrite lookup_empty.
  - destruct (decide (EQ ∈ l)) as [Hin|Hout].
    + apply list_elem_of_split_l in Hin as (pre & post & -> & Hpre).
      exists (A ∪ {[ strings.TrimSpace pre := strings.TrimSpace post ]}), err.
      split; [|split; [done|]].
      * intros ifs. simpl. rewrite storeLine_split by done.
        rewrite Hstore. simpl.
        by rewrite insert_union_singleton_l, (assoc_L (∪)).
      * intros key val [HA|[_ Hs]]%lookup_union_Some_raw; [by apply Htrim|].
        apply lookup_singleton_Some in Hs as [<- <-].
        destruct (TrimSpace_split pre) as (_ & _ & _ & _ & _ & Hk).
        destruct (TrimSpace_split post) as (_ & _ & _ & _ & _ & Hv). done.
    + exists ∅, (Some ParseError). split; [|split; [by right|]].
      * intros [m]. simpl. rewrite storeLine_missing by done.
        by rewrite (left_id_L ∅ (∪)).
      * intros key val. by rewrite lookup_empty.
Qed.

(** What Load does in an environment: the lines it stores and the way it
    ends do not depend on the store. *)
Lemma Load_plan (w : World) :
  ∃ (lines : list gostring) (final : option Error),
    (∀ ifs, Load w ifs = Some (w, (storeLines lines final ifs).1,
                                  (storeLines lines final ifs).2))
    ∧ (final = None ∨ (∃ e, final = Some (wrapError e))
       ∨ (w_AppDataPath w).2 = final).
Proof.
  unfold Load, fileExists, filePath.
  destruct (w_AppDataPath w) as [appData [e|]] eqn:HappData.
  { exists [], (Some e). split; [done|]. by right; right. }
  set (path := w_Join w _).
  destruct (os.Stat w path) as [e|] eqn:Hstat.
  { exists [], None. split; [done|]. by left. }
  unfold withFile, filePath. rewrite HappData. fold path.
  destruct (w_Split w path) as [dirPath base].
  destruct (os.MkdirAll w dirPath 420) as [e|].
  { exists [], (Some (wrapError e)). split; [done|]. right; left. by eexists. }
  unfold os.OpenFile. destruct (w_openFault w) as [e|].
  { exists [], (Some (wrapError e)). split; [done|]. right; left. by eexists. }
  unfold os.Stat in Hstat. destruct (w_statFault w); [done|].
  destruct (w_files w !! path) as [content|] eqn:Hfile; [|done].
  change (Z.testbit os.O_RDONLY 9) with false. cbv iota.
  set (reader := bufio.NewReader w _).
  exists (linesOf (S (length (bufio.rd_pending reader))) reader),
         (endOfStream (bufio.rd_err reader)).
  split.
  - intros ifs. rewrite loadLoop_linesOf by lia.
    by destruct (storeLines _ _ ifs).
  - unfold endOfStream. case_bool_decide; [by left|]. right; left. by eexists.
Qed.

Lemma Load_overlay (w : World) :
  ∃ (A : gmap gostring gostring) (err : option Error),
    ∀ ifs, Load w ifs = Some (w, {| data := A ∪ data ifs |}, err).
Proof.
  destruct (Load_plan w) as (lines & final & Hload & _).
  destruct (storeLines_overlay lines final) as (A & err & Hstore & _).
  exists A, err. intros ifs. by rewrite Hload, Hstore.
Qed.

(** X4: Load overlays the store with the entries it reads: in every
    environment there are entries and an error such that Load into any store
    returns that error, leaves the environment as it is and leaves the store
    with those entries put over its own.  So Load removes no key, and what it
    reads does not depend on what the store holds. *)
Theorem Load_overlays (w : World) :
  ∃ (A : gmap gostring gostring) (err : option Error),
    ∀ ifs, Load w ifs = Some (w, {| data := A ∪ data ifs |}, err).
Proof. apply Load_overlay. Qed.

(** X5: Load is idempotent: a second Load in the same environment returns
    the same error and leaves the store the first one left. *)
Theorem Load_idempotent (w w' : World) (ifs ifs' : IniFileSettings)
    (err : option Error) :
  Load w ifs = Some (w', ifs', err) →
  Load w' ifs' = Some (w', ifs', err).
Proof.
  destruct (Load_overlay w) as (A & err0 & Hload).
  rewrite Hload. intros [= <- <- <-]. rewrite Hload. simpl.
  by rewrite (assoc_L (∪)), (idemp_L (∪)).
Qed.

Lemma Load_idempotent_witness :
  Load (sampleWorld {[ samplePath := textOf ["a=b" : gostring; "bad" : gostring] [] ]})
    {| data := {[ ("a" : gostring) := ("b" : gostring) ]} |}
  = Some (sampleWorld {[ samplePath := textOf ["a=b" : gostring; "bad" : gostring] [] ]},
          {| data := {[ ("a" : gostring) := ("b" : gostring) ]} |},
          Some ParseError).
Proof.
  apply (Load_idempotent
           (sampleWorld {[ samplePath := textOf ["a=b" : gostring; "bad" : gostring] [] ]})
           _ NewIniFileSettings).
  vm_compute. reflexivity.
Defined.

(** X6: Load fails in three ways only: with ParseError, with a wrapped error
    of a system call, or with the error of [AppDataPath()] as it is. *)
Theorem Load_error_kinds (w w' : World) (ifs ifs' : IniFileSettings)
    (err : Error) :
  Load w ifs = Some (w', ifs', Some err) →
  err = ParseError ∨ (∃ e, err = wrapError e) ∨ (w_AppDataPath w).2 = Some err.
Proof.
  destruct (Load_plan w) as (lines & final & Hload & Hfinal).
  destruct (storeLines_overlay lines final) as (A & err0 & Hstore & Herr & _).
  rewrite Hload, Hstore. simpl. intros [= _ _ ->].
  destruct Herr as [Hf|[= ->]]; [|by left]. subst final.
  destruct Hfinal as [[=]|[[e [= ->]]|Hpath]]; [|by right; right].
  right; left. by eexists.
Qed.

Lemma Load_error_kinds_witness :
  ENOENT = ParseError ∨ (∃ e, ENOENT = wrapError e)
  ∨ (w_AppDataPath (appDataMissing ∅)).2 = Some ENOENT.
Proof.
  apply (Load_error_kinds (appDataMissing ∅) (appDataMissing ∅)
           NewIniFileSettings NewIniFileSettings).
  reflexivity.
Defined.

(** X7: what Load reads into a store free of surrounding white space is free
    of it too: keys and values come out of the file trimmed. *)
Theorem Load_keeps_trimmed (w w' : World) (ifs ifs' : IniFileSettings)
    (err : option Error) :
  trimmedStore ifs → Load w ifs = Some (w', ifs', err) → trimmedStore ifs'.
Proof.
  intros Htrimmed.
  destruct (Load_plan w) as (lines & final & Hload & _).
  destruct (storeLines_overlay lines final) as (A & err0 & Hstore & _ & HA).
  rewrite Hload, Hstore. simpl. intros [= _ <- _].
  intros key val [Hin|[_ Hin]]%lookup_union_Some_raw; [by apply HA|].
  by apply Htrimmed.
Qed.

Lemma Load_keeps_trimmed_witness :
  trimmedStore {| data := {[ ("a" : gostring) := ("b=c" : gostring) ]} |}.
Proof.
  apply (Load_keeps_trimmed
           (sampleWorld {[ samplePath := textOf [" a = b=c " : gostring] [] ]})
           (sampleWorld {[ samplePath := textOf [" a = b=c " : gostring] [] ]})
           NewIniFileSettings _ None).
  - intros key val. simpl. by rewrite lookup_empty.
  - vm_compute. reflexivity.
Defined.

(** X8: where [AppDataPath()] fails, Load returns its error as it is and
    leaves the store and the environment untouched. *)
Theorem Load_path_failure (w : World) (ifs : IniFileSettings) (e : Error) :
  (w_AppDataPath w).2 = Some e → Load w ifs = Some (w, ifs, Some e).
Proof.
  intros Hpath. unfold Load, fileExists, filePath.
  destruct (w_AppDataPath w) as [appData err]. simpl in Hpath. by subst err.
Qed.

Lemma Load_path_failure_witness :
  Load (appDataMissing ∅) sampleStore = Some (appDataMissing ∅, sampleStore, Some ENOENT).
Proof. apply Load_path_failure. reflexivity. Defined.



(** The store that storing lines leaves does not depend on the way the
    stream ends. *)
Lemma storeLines_store (lines : list gostring) (final final' : option Error)
    (ifs : IniFileSettings) :
  (storeLines lines final ifs).1 = (storeLines lines final' ifs).1.
Proof.
  revert ifs. induction lines as [|l lines IH]; intros ifs; simpl; [done|].
  destruct (storeLine l ifs); [apply IH|done].
Qed.

(** X10: where reading fails after whole lines that all have a '=', Load
    has stored those lines and returns the error of the read wrapped. *)
Theorem Load_read_error_after_lines (w : World) (path content : gostring)
    (lines : list gostring) (n : nat) (e : Error) (ifs : IniFileSettings) :
  w_statFault w = None → w_mkdirFault w = None → w_openFault w = None →
  filePath w = (path, None) → w_files w !! path = Some content →
  w_readFault w = Some (n, e) → e ≠ EOF →
  take n content = textOf lines [] →
  Forall (λ l, LF ∉ l) lines → Forall (λ l, EQ ∈ l) lines →
  Load w ifs
  = Some (w, (storeLines (bufio.dropCR <$> lines) None ifs).1,
          Some (wrapError e))
  ∧ (storeLines (bufio.dropCR <$> lines) None ifs).2 = None.
Proof.
  intros Hstat Hmkdir Hopen Hpath Hfile Hread He Htake Hlines Hgood.
  assert (Hgood' : Forall (λ l, EQ ∈ l) (bufio.dropCR <$> lines)).
  { apply Forall_fmap. eapply Forall_impl; [exact Hgood|].
    intros l Hl. simpl. unfold bufio.dropCR. case_bool_decide as Hcr; [|done].
    apply last_Some in Hcr as [l' ->].
    rewrite length_app, Nat.add_sub, take_app_length.
    rewrite elem_of_app, elem_of_cons, elem_of_nil in Hl.
    destruct Hl as [?|[?|[]]]; done. }
  split; [|by apply storeLines_good].
  pose proof (Load_stream w path content ifs Hstat Hmkdir Hopen Hpath Hfile)
    as Hload.
  cbv zeta in Hload. rewrite Hload. clear Hload.
  unfold bufio.NewReader. cbn [os.f_name]. rewrite Hfile, Hread.
  cbn [default from_option id bufio.rd_pending bufio.rd_err].
  rewrite Htake, linesOf_text.
  - unfold linesRead. rewrite (right_id_L [] (++)).
    rewrite (storeLines_good _ (endOfStream e) ifs Hgood').
    rewrite (storeLines_store _ (endOfStream e) None).
    unfold endOfStream. by rewrite bool_decide_eq_false_2.
  - done.
  - apply not_elem_of_nil.
  - unfold bufio.defaultBufSize. simpl. lia.
  - pose proof (linesRead_length lines []). lia.
Qed.

Lemma Load_read_error_after_lines_witness :
  Load (sampleWorldWith
          {[ samplePath := textOf ["a=b" : gostring; "c=d" : gostring] [] ]}
          None None None (Some (4%nat, Errno 5)) None)
    NewIniFileSettings
  = Some (sampleWorldWith
            {[ samplePath := textOf ["a=b" : gostring; "c=d" : gostring] [] ]}
            None None None (Some (4%nat, Errno 5)) None,
          (storeLines (bufio.dropCR <$> ["a=b" : gostring]) None
             NewIniFileSettings).1,
          Some (wrapError (Errno 5)))
  ∧ (storeLines (bufio.dropCR <$> ["a=b" : gostring]) None NewIniFileSettings).2
    = None.
Proof.
  apply (Load_read_error_after_lines _ samplePath
           (textOf ["a=b" : gostring; "c=d" : gostring] [])
           ["a=b" : gostring] 4 (Errno 5)).
  - reflexivity.
  - reflexivity.
  - reflexivity.
  - reflexivity.
  - vm_compute. reflexivity.
  - reflexivity.
  - by_evaluation.
  - vm_compute. reflexivity.
  - by_evaluation.
  - by_evaluation.
Defined.

(** ** Save *)


(** X11: where no system call fails, Save succeeds, leaves the store as it
    is and leaves in the file the lines key=value of the entries, each ended
    by a line feed, in the order of iteration and nothing else: what the file
    held before is gone, and no other file is touched. *)
Theorem Save_writes_entries (entries : list (gostring * gostring)) (w : World)
    (path : gostring) (ifs : IniFileSettings) :
  faultless w → filePath w = (path, None) →
  ∃ w',
    Save entries w ifs = Some (w', ifs, None)
    ∧ w_files w' !! path
      = Some (concat ((λ kv, kv.1 ++ [EQ] ++ kv.2 ++ [LF]) <$> entries))
    ∧ (∀ other, other ≠ path → w_files w' !! other = w_files w !! other).
Proof.
  intros Hw Hpath. exists (fileSet w path (savedText entries)).
  split; [by apply Save_ok|]. unfold fileSet. simpl. split.
  - by rewrite lookup_insert_eq.
  - intros other Hother. by rewrite lookup_insert_ne.
Qed.

Lemma Save_writes_entries_witness :
  ∃ w',
    Save (map_to_list (data sampleStore))
      (sampleWorld {[ samplePath := ("old=content" : gostring) ]}) sampleStore
    = Some (w', sampleStore, None)
    ∧ w_files w' !! samplePath
      = Some (concat ((λ kv, kv.1 ++ [EQ] ++ kv.2 ++ [LF])
                        <$> map_to_list (data sampleStore)))
    ∧ (∀ other, other ≠ samplePath →
         w_files w' !! other
         = w_files (sampleWorld {[ samplePath := ("old=content" : gostring) ]})
             !! other).
Proof.
  apply Save_writes_entries.
  - repeat split.
  - reflexivity.
Defined.

(** Loading the text Save writes for valid entries without surrounding white
    space puts those entries over the store. *)
Lemma Load_savedText (w : World) (path : gostring)
    (entries : list (gostring * gostring)) (other : IniFileSettings) :
  faultless w → filePath w = (path, None) →
  w_files w !! path = Some (savedText entries) →
  NoDup (entries.*1) →
  (∀ kv, kv ∈ entries →
     validKey kv.1 ∧ validValue kv.2
     ∧ noSurroundingSpace kv.1 ∧ noSurroundingSpace kv.2) →
  Load w other
  = Some (w, {| data := list_to_map entries ∪ data other |}, None).
Proof.
  intros Hw Hpath Hfile Hnodup Hentries.
  set (lines := (λ kv : gostring * gostring, kv.1 ++ EQ :: kv.2) <$> entries).
  assert (Hread : linesRead lines [] = lines).
  { unfold linesRead. rewrite (right_id_L [] (++)). subst lines.
    rewrite <- list_fmap_compose. apply list_fmap_ext. intros i kv Hin.
    apply list_elem_of_lookup_2 in Hin. simpl.
    apply dropCR_entry. by apply (Hentries kv). }
  rewrite (Load_text w path lines [] other); try done.
  - rewrite Hread. subst lines. rewrite storeLines_entries.
    + simpl. by rewrite foldl_insert_list_to_map.
    + apply Forall_forall. intros kv Hin.
      destruct (Hentries kv Hin) as ((HkEQ & _) & _ & Hk & Hv). done.
  - by rewrite Hfile, savedText_textOf.
  - apply Forall_forall. intros l Hl.
    apply list_elem_of_fmap in Hl as (kv & -> & Hin).
    destruct (Hentries _ Hin) as ((_ & _ & HkLF) & (_ & HvLF) & _).
    rewrite elem_of_app, elem_of_cons. intros [?|[?|?]]; done.
  - apply not_elem_of_nil.
  - unfold bufio.defaultBufSize. simpl. lia.
Qed.

Lemma rangeOrder_entries (ifs : IniFileSettings)
    (entries : list (gostring * gostring)) :
  rangeOrder ifs entries →
  NoDup (entries.*1)
  ∧ list_to_map entries = data ifs
  ∧ (∀ kv, kv ∈ entries ↔ data ifs !! kv.1 = Some kv.2).
Proof.
  unfold rangeOrder. intros Horder.
  assert (Hnodup : NoDup (entries.*1)).
  { rewrite Horder. apply NoDup_fst_map_to_list. }
  split; [done|]. split.
  - rewrite (list_to_map_proper entries (map_to_list (data ifs))) by done.
    apply list_to_map_to_list.
  - intros [key val]. rewrite Horder. apply elem_of_map_to_list.
Qed.

(** X12: Save followed by Load into any store, not only a new one, puts
    the saved entries over that store: a key of the saved store has the saved
    value, every other key has the value it had. *)
Theorem Save_then_Load_overlays
    (w : World) (path : gostring) (ifs other : IniFileSettings)
    (entries : list (gostring * gostring)) :
  faultless w → filePath w = (path, None) →
  rangeOrder ifs entries →
  (∀ key val, data ifs !! key = Some val →
     validKey key ∧ validValue val
     ∧ noSurroundingSpace key ∧ noSurroundingSpace val) →
  ∃ w',
    Save entries w ifs = Some (w', ifs, None)
    ∧ Load w' other = Some (w', {| data := data ifs ∪ data other |}, None).
Proof.
  intros Hw Hpath Horder Hvalid.
  destruct (rangeOrder_entries ifs entries Horder) as (Hnodup & Hmap & Hin).
  exists (fileSet w path (savedText entries)).
  split; [by apply Save_ok|].
  rewrite <- Hmap. apply (Load_savedText _ path).
  - by destruct Hw as (? & ? & ? & ? & ?).
  - exact Hpath.
  - unfold fileSet. simpl. by rewrite lookup_insert_eq.
  - done.
  - intros [key val] Hkv. apply Hvalid. by apply (Hin (key, val)).
Qed.

Lemma Save_then_Load_overlays_witness :
  ∃ w',
    Save (map_to_list (data sampleStore)) (sampleWorld ∅) sampleStore
    = Some (w', sampleStore, None)
    ∧ Load w' {| data := {[ ("name" : gostring) := ("old" : gostring);
                            ("other" : gostring) := ("kept" : gostring) ]} |}
      = Some (w',
              {| data := data sampleStore
                         ∪ {[ ("name" : gostring) := ("old" : gostring);
                              ("other" : gostring) := ("kept" : gostring) ]} |},
              None).
Proof.
  apply (Save_then_Load_overlays (sampleWorld ∅) samplePath).
  - repeat split.
  - reflexivity.
  - unfold rangeOrder. reflexivity.
  - intros key val Hlookup.
    refine (map_Forall_lookup_1
              (λ k v, validKey k ∧ validValue v
                      ∧ noSurroundingSpace k ∧ noSurroundingSpace v)
              (data sampleStore) key val _ Hlookup).
    by_evaluation.
Defined.



(** X14: where the directory cannot be made or the file cannot be opened,
    Save returns the error of that system call wrapped and has written
    nothing: the file holds what it held. *)
Theorem Save_cannot_open (entries : list (gostring * gostring)) (w : World)
    (ifs : IniFileSettings) (e : Error) :
  w_mkdirFault w = Some e ∨ (w_mkdirFault w = None ∧ w_openFault w = Some e) →
  Save entries w ifs = Some (w, ifs, Some (wrapError e))
  ∧ IOError (wrapError e) = true.
Proof.
  intros Hfault. split; [|done].
  unfold Save, withFile, os.MkdirAll, os.OpenFile.
  destruct (filePath w) as [path err]. destruct (w_Split w path) as [dirPath base].
  destruct Hfault as [->|[-> ->]]; done.
Qed.

Lemma Save_cannot_open_witness :
  Save (map_to_list (data sampleStore))
    (sampleWorldWith {[ samplePath := ("old=content" : gostring) ]}
       None None (Some EACCES) None None) sampleStore
  = Some (sampleWorldWith {[ samplePath := ("old=content" : gostring) ]}
            None None (Some EACCES) None None,
          sampleStore, Some (wrapError EACCES))
  ∧ IOError (wrapError EACCES) = true.
Proof. apply Save_cannot_open. by right. Defined.



(** X16: Load and Save return in every environment: the loops of Load end
    for every file and every failure of a read, whatever the length of its
    lines, and the loops of the writer end for every failure of a write. *)
Theorem Load_and_Save_return (w : World) (ifs : IniFileSettings)
    (entries : list (gostring * gostring)) :
  (∃ w' ifs' err, Load w ifs = Some (w', ifs', err))
  ∧ (∃ w' err, Save entries w ifs = Some (w', ifs, err)).
Proof.
  split.
  - destruct (Load_returns w ifs) as [[[w' ifs'] err] Hload]. eauto.
  - destruct (Save_returns entries w ifs) as [[[w' ifs'] err] Hsave].
    rewrite Hsave. rewrite (Save_keeps_store _ _ _ _ _ _ Hsave). eauto.
Qed.

(** ** Save on a file that cannot grow *)

Section limited_writer.
Local Open Scope nat_scope.
Local Opaque bufio.defaultBufSize.
Context (w : World) (name : gostring) (limit : nat) (e : Error).
Context (Hfault : w_writeFault w = Some (limit, e)).
Implicit Types (b : bufio.Writer) (c s : gostring).







End limited_writer.



(** ** Saving entries that carry surrounding white space *)

Lemma storeLines_entries_trimmed (entries : list (gostring * gostring))
    (final : option Error) (ifs : IniFileSettings) :
  Forall (λ kv, EQ ∉ kv.1) entries →
  storeLines ((λ kv, kv.1 ++ EQ :: kv.2) <$> entries) final ifs
  = ({| data := foldl (λ m kv, <[strings.TrimSpace kv.1 := strings.TrimSpace kv.2]> m)
                  (data ifs) entries |}, final).
Proof.
  intros Hentries. revert ifs.
  induction Hentries as [|[key val] entries Hkey _ IH]; intros ifs.
  - by destruct ifs.
  - simpl in *. rewrite storeLine_split by done. by rewrite IH.
Qed.

(** X26: Put accepts keys and values with surrounding white space, and
    Save followed by Load does not give them back: what comes back, for any
    store of valid entries, is each entry trimmed, put into the new store in
    the order in which Save iterated.  Two keys that differ in surrounding
    white space only come back as one, with the value of the one iterated
    last. *)
Theorem Save_then_Load_trims
    (w : World) (path : gostring) (ifs : IniFileSettings)
    (entries : list (gostring * gostring)) :
  faultless w → filePath w = (path, None) →
  rangeOrder ifs entries → specInvariant ifs →
  ∃ w',
    Save entries w ifs = Some (w', ifs, None)
    ∧ Load w' NewIniFileSettings
      = Some (w',
              {| data := foldl (λ m kv, <[strings.TrimSpace kv.1
                                          := strings.TrimSpace kv.2]> m)
                           ∅ entries |},
              None).
Proof.
  intros Hw Hpath Horder Hvalid.
  destruct (rangeOrder_entries ifs entries Horder) as (_ & _ & Hin).
  assert (Hentries : ∀ kv, kv ∈ entries → validKey kv.1 ∧ validValue kv.2).
  { intros [key val] Hkv. apply Hvalid. by apply (Hin (key, val)). }
  exists (fileSet w path (savedText entries)).
  split; [by apply Save_ok|].
  set (lines := (λ kv : gostring * gostring, kv.1 ++ EQ :: kv.2) <$> entries).
  assert (Hread : linesRead lines [] = lines).
  { unfold linesRead. rewrite (right_id_L [] (++)). subst lines.
    rewrite <- list_fmap_compose. apply list_fmap_ext. intros i kv Hkv.
    apply list_elem_of_lookup_2 in Hkv. simpl.
    destruct (Hentries kv Hkv) as (_ & (Hcr & _)).
    apply dropCR_no_CR. rewrite last_app, last_cons.
    destruct (last kv.2) as [c|] eqn:Hlast; [|done].
    intros [= ->]. apply Hcr. apply last_Some in Hlast as [val' ->].
    rewrite elem_of_app, elem_of_cons. tauto. }
  rewrite (Load_text _ path lines [] NewIniFileSettings).
  - rewrite Hread. subst lines. rewrite storeLines_entries_trimmed; [done|].
    apply Forall_forall. intros kv Hkv. by destruct (Hentries kv Hkv) as ((? & _) & _).
  - by destruct Hw as (? & ? & ? & ? & ?).
  - exact Hpath.
  - unfold fileSet. simpl. rewrite lookup_insert_eq. by rewrite savedText_textOf.
  - apply Forall_forall. intros l Hl.
    apply list_elem_of_fmap in Hl as (kv & -> & Hkv).
    destruct (Hentries _ Hkv) as ((_ & _ & HkLF) & (_ & HvLF)).
    rewrite elem_of_app, elem_of_cons. intros [?|[?|?]]; done.
  - apply not_elem_of_nil.
  - unfold bufio.defaultBufSize. simpl. lia.
Qed.

Lemma Save_then_Load_trims_witness :
  ∃ w',
    Save [((" a" : gostring), ("1" : gostring)); (("a" : gostring), ("2 " : gostring))]
      (sampleWorld ∅)
      {| data := list_to_map
                   [((" a" : gostring), ("1" : gostring));
                    (("a" : gostring), ("2 " : gostring))] |}
    = Some (w',
            {| data := list_to_map
                         [((" a" : gostring), ("1" : gostring));
                          (("a" : gostring), ("2 " : gostring))] |},
            None)
    ∧ Load w' NewIniFileSettings
      = Some (w',
              {| data := foldl (λ m kv, <[strings.TrimSpace kv.1
                                          := strings.TrimSpace kv.2]> m)
                           ∅ [((" a" : gostring), ("1" : gostring));
                              (("a" : gostring), ("2 " : gostring))] |},
              None).
Proof.
  apply (Save_then_Load_trims (sampleWorld ∅) samplePath).
  - repeat split.
  - reflexivity.
  - unfold rangeOrder. cbn [data]. symmetry. apply map_to_list_to_map.
    by_evaluation.
  - intros key val Hlookup.
    refine (map_Forall_lookup_1 (λ k v, validKey k ∧ validValue v)
              _ key val _ Hlookup).
    by_evaluation.
Defined.

(** * The tooltip and the file browser *)

(** ** Creating a tooltip *)

(** X18: NewToolTip returns a tooltip or an error, never both and never
    neither; it disposes the tooltip exactly when the widget was initialised
    and could not be added to the children of its parent, and a tooltip it
    returns has been added, made topmost and not disposed. *)
Theorem NewToolTip_cleans_up (tk : Toolkit) :
  (is_Some (NewToolTip tk).2.1 ↔ (NewToolTip tk).2.2 = None)
  ∧ (∀ h, callDispose h ∈ (NewToolTip tk).1
          ↔ initWidget tk = inl h ∧ is_Some (childrenAdd tk h))
  ∧ (∀ tt, (NewToolTip tk).2.1 = Some tt →
           initWidget tk = inl (hWnd (tt_WidgetBase tt))
           ∧ (NewToolTip tk).1
             = [callInitWidget "tooltips_class32"
                  (Z.lor (Z.lor WS_POPUP TTS_ALWAYSTIP) TTS_BALLOON) WS_EX_TOPMOST;
                callChildrenAdd (hWnd (tt_WidgetBase tt));
                callSetWindowPos (hWnd (tt_WidgetBase tt)) HWND_TOPMOST 0 0 0 0
                  (Z.lor (Z.lor SWP_NOMOVE SWP_NOSIZE) SWP_NOACTIVATE)]).
Proof.
  unfold NewToolTip. destruct (initWidget tk) as [h|err] eqn:Hinit.
  - destruct (childrenAdd tk h) as [err|] eqn:Hadd; simpl.
    + split; [split; [by intros [? ?]|done]|]. split; [|done].
      intros h'. rewrite !elem_of_cons, elem_of_nil. split.
      * intros [?|[?|[[= <-]|[]]]]; done.
      * intros [[= <-] _]. tauto.
    + split; [split; [done|by eexists]|]. split.
      * intros h'. rewrite !elem_of_cons, elem_of_nil. split.
        -- intros [?|[?|[?|[]]]]; done.
        -- intros [[= <-] Hsome]. rewrite Hadd in Hsome. by destruct Hsome.
      * by intros tt [= <-].
  - simpl. split; [split; [by intros [? ?]|done]|]. split; [|done].
    intros h. rewrite elem_of_cons, elem_of_nil. split.
    + intros [?|[]]; done.
    + by intros [? _].
Qed.

(** ** The rows of the file browser *)

Section filebrowser_facts.
Import filebrowser.
Implicit Types (fs : FileSystem) (m : FileInfoModel) (names : list gostring).

Lemma resetLoop_rows fs dirPath names rows :
  ∃ added,
    resetLoop fs dirPath names rows = rows ++ added
    ∧ Name <$> added = filter (λ name, shown fs dirPath name = true) names
    ∧ Forall (λ item, ∃ fi,
                fs_Stat fs (fs_Join fs [dirPath; Name item]) = inl fi
                ∧ Size item = fi_Size fi
                ∧ Modified item = Z.quot (fi_Mtime_ns fi) 1000000000) added.
Proof.
  revert rows. induction names as [|name names IH]; intros rows; simpl.
  - exists []. by rewrite (right_id_L [] (++)).
  - rewrite filter_cons.
    destruct (excludePath name) eqn:Hexcluded; simpl.
    { rewrite decide_False by (unfold shown; rewrite Hexcluded; done).
      apply IH. }
    destruct (fs_Stat fs (fs_Join fs [dirPath; name])) as [fi|err] eqn:Hstat.
    + rewrite decide_True by (unfold shown; rewrite Hexcluded, Hstat; done).
      destruct (IH (rows ++ [{| Name := name; Size := fi_Size fi;
                                Modified := Z.quot (fi_Mtime_ns fi) 1000000000 |}]))
        as (added & -> & Hnames & Hfields).
      eexists (_ :: added). split; [by rewrite <- (assoc_L (++))|].
      split; [by rewrite fmap_cons, Hnames|].
      constructor; [|done]. simpl. by exists fi.
    + rewrite decide_False by (unfold shown; rewrite Hexcluded, Hstat; done).
      apply IH.
Qed.

End filebrowser_facts.

(** X19: where the directory opens and its names are read, ResetRows
    succeeds and replaces the rows it had: the new rows are, in the order of
    the listing, the names that are not left out and that can be stat'ed, each
    with the size found and the time of modification in whole seconds; a name
    that cannot be stat'ed is passed over in silence.  One reset of the rows
    is published. *)
Theorem ResetRows_lists (fs : filebrowser.FileSystem)
    (m : filebrowser.FileInfoModel) (dirPath : gostring) (names : list gostring) :
  filebrowser.fs_Open fs dirPath = None →
  filebrowser.fs_Readdirnames fs dirPath = (names, None) →
  ∃ m',
    filebrowser.ResetRows fs m dirPath = (m', None)
    ∧ filebrowser.Name <$> filebrowser.items m'
      = filter (λ name, filebrowser.shown fs dirPath name = true) names
    ∧ Forall (λ item, ∃ fi,
                filebrowser.fs_Stat fs
                  (filebrowser.fs_Join fs [dirPath; filebrowser.Name item]) = inl fi
                ∧ filebrowser.Size item = filebrowser.fi_Size fi
                ∧ filebrowser.Modified item
                  = Z.quot (filebrowser.fi_Mtime_ns fi) 1000000000)
        (filebrowser.items m')
    ∧ filebrowser.rowsResetPublished m'
      = S (filebrowser.rowsResetPublished m).
Proof.
  intros Hopen Hnames. unfold filebrowser.ResetRows. rewrite Hopen, Hnames.
  destruct (resetLoop_rows fs dirPath names []) as (added & Hloop & Hadded & Hfields).
  eexists. split; [done|]. simpl. rewrite Hloop. simpl. done.
Qed.

Lemma ResetRows_lists_witness :
  ∃ m',
    filebrowser.ResetRows filebrowser.sampleFS
      (filebrowser.mkFileInfoModel
         [filebrowser.mkFileInfo "stale" 1 1] 0) "C:"
    = (m', None)
    ∧ filebrowser.Name <$> filebrowser.items m'
      = filter (λ name, filebrowser.shown filebrowser.sampleFS "C:" name = true)
          [("a.txt" : gostring); ("System Volume Information" : gostring);
           ("docs" : gostring); ("gone" : gostring)]
    ∧ Forall (λ item, ∃ fi,
                filebrowser.fs_Stat filebrowser.sampleFS
                  (filebrowser.fs_Join filebrowser.sampleFS
                     [("C:" : gostring); filebrowser.Name item]) = inl fi
                ∧ filebrowser.Size item = filebrowser.fi_Size fi
                ∧ filebrowser.Modified item
                  = Z.quot (filebrowser.fi_Mtime_ns fi) 1000000000)
        (filebrowser.items m')
    ∧ filebrowser.rowsResetPublished m' = 1%nat.
Proof.
  apply (ResetRows_lists filebrowser.sampleFS
           (filebrowser.mkFileInfoModel [filebrowser.mkFileInfo "stale" 1 1] 0)
           "C:"); reflexivity.
Defined.

(** X20: where the directory cannot be opened or its names cannot be read,
    ResetRows returns that error as it is, keeps the rows it had and
    publishes nothing. *)
Theorem ResetRows_failure (fs : filebrowser.FileSystem)
    (m : filebrowser.FileInfoModel) (dirPath : gostring) (err : Error) :
  filebrowser.fs_Open fs dirPath = Some err
  ∨ (filebrowser.fs_Open fs dirPath = None
     ∧ (filebrowser.fs_Readdirnames fs dirPath).2 = Some err) →
  filebrowser.ResetRows fs m dirPath = (m, Some err).
Proof.
  unfold filebrowser.ResetRows. intros [->|[-> Hread]]; [done|].
  destruct (filebrowser.fs_Readdirnames fs dirPath) as [names e].
  simpl in Hread. by subst e.
Qed.

Lemma ResetRows_failure_witness :
  filebrowser.ResetRows filebrowser.sampleFS
    (filebrowser.mkFileInfoModel [filebrowser.mkFileInfo "kept" 1 1] 3) "D:"
  = (filebrowser.mkFileInfoModel [filebrowser.mkFileInfo "kept" 1 1] 3,
     Some ENOENT).
Proof. apply ResetRows_failure. left. reflexivity. Defined.

(** X21: Value returns exactly for a row below RowCount and a column 0, 1
    or 2; everywhere else it panics, and for a row out of range the panic is
    the one of the index, whatever the column. *)
Theorem Value_returns_iff (m : filebrowser.FileInfoModel) (row col : Z) :
  ((∃ c, filebrowser.Value m row col = Returns c)
   ↔ (0 ≤ row < filebrowser.RowCount m ∧ 0 ≤ col ≤ 2))
  ∧ (¬ (0 ≤ row < filebrowser.RowCount m) →
     filebrowser.Value m row col = Panics "runtime error: index out of range")
  ∧ (0 ≤ row < filebrowser.RowCount m → ¬ (0 ≤ col ≤ 2) →
     filebrowser.Value m row col = Panics "unexpected col").
Proof.
  unfold filebrowser.Value, filebrowser.RowCount.
  destruct (Z.ltb_spec row 0) as [Hneg|Hpos]; simpl.
  { split; [split; [by intros [c ?]|lia]|]. split; [done|lia]. }
  destruct (Z.leb_spec (Z.of_nat (length (filebrowser.items m))) row)
    as [Hbig|Hsmall]; simpl.
  { split; [split; [by intros [c ?]|lia]|]. split; [done|lia]. }
  destruct (filebrowser.items m !! Z.to_nat row) as [item|] eqn:Hitem.
  - split; [|split; [lia|]].
    + split.
      * intros [c Hc]. split; [lia|].
        destruct col as [|[q|[q|q|]|]|q]; try done; lia.
      * intros [_ Hcol].
        assert (Hc : col = 0 ∨ col = 1 ∨ col = 2) by lia.
        destruct Hc as [-> | [-> | ->]]; by eexists.
    + intros _ Hcol. destruct col as [|[q|[q|q|]|]|q]; try done; lia.
  - apply lookup_ge_None in Hitem. lia.
Qed.

(** ** Paths of tree view items *)

Lemma pathParts_app (item : filebrowser.TreeViewItem) (parts : list gostring) :
  filebrowser.pathParts item parts = filebrowser.pathParts item [] ++ parts.
Proof.
  revert parts.
  induction item as [text [parent|] IH] using
    (fix ind (P : filebrowser.TreeViewItem → Prop)
         (step : ∀ text parent,
                   match parent with Some p => P p | None => True end →
                   P (filebrowser.mkTreeViewItem text parent))
         (item : filebrowser.TreeViewItem) {struct item} : P item :=
       match item with
       | filebrowser.mkTreeViewItem text parent =>
           step text parent
             match parent with
             | Some p => ind P step p
             | None => I
             end
       end).
  - intros parts. simpl. rewrite (IH (text :: parts)), (IH [text]).
    by rewrite <- (assoc_L (++)).
  - done.
Qed.

(** X22: the path of an item is joined from the texts of its ancestors and
    its own, from the root down: the parts of an item are the parts of its
    parent followed by its text, and an item without a parent has its text as
    its one part. *)
Theorem pathForTreeViewItem_child (fs : filebrowser.FileSystem) (text : gostring)
    (parent : option filebrowser.TreeViewItem) :
  filebrowser.pathForTreeViewItem fs (Some (filebrowser.mkTreeViewItem text parent))
  = filebrowser.fs_Join fs
      (match parent with
       | Some p => filebrowser.pathParts p []
       | None => []
       end ++ [text]).
Proof.
  unfold filebrowser.pathForTreeViewItem. f_equal. simpl.
  destruct parent as [p|]; [|done]. apply pathParts_app.
Qed.

(** ** Populating a tree view item *)

Section populate_facts.
Import filebrowser.
Implicit Types (fs : FileSystem) (names : list gostring) (calls : list uiCall).

Lemma populateLoop_all_stat fs dirPath names calls :
  Forall (λ name, ∃ fi, fs_Stat fs (fs_Join fs [dirPath; name]) = inl fi) names →
  populateLoop fs dirPath names calls
  = (calls ++ (ChildrenAdd <$> filter (λ name, folder fs dirPath name = true) names),
     Normal).
Proof.
  intros Hstat. revert calls.
  induction Hstat as [|name names [fi Hfi] _ IH]; intros calls; simpl.
  - by rewrite (right_id_L [] (++)).
  - rewrite Hfi, filter_cons.
    assert (Hfolder : folder fs dirPath name
                      = negb (excludePath name) && fi_IsDirectory fi)
      by (unfold folder; by rewrite Hfi).
    destruct (negb (excludePath name) && fi_IsDirectory fi).
    + rewrite decide_True by done. rewrite IH, fmap_cons.
      by rewrite <- (assoc_L (++)).
    + rewrite decide_False by (rewrite Hfolder; done). apply IH.
Qed.

Lemma populateLoop_stat_failure fs dirPath before name after calls err :
  Forall (λ name, ∃ fi, fs_Stat fs (fs_Join fs [dirPath; name]) = inl fi) before →
  fs_Stat fs (fs_Join fs [dirPath; name]) = inr err →
  populateLoop fs dirPath (before ++ name :: after) calls
  = (calls ++ (ChildrenAdd <$> filter (λ name, folder fs dirPath name = true) before),
     PanicWith err).
Proof.
  intros Hstat Herr. revert calls.
  induction Hstat as [|n before [fi Hfi] _ IH]; intros calls; simpl.
  - rewrite Herr. f_equal. symmetry. apply app_nil_r.
  - rewrite Hfi, filter_cons.
    assert (Hfolder : folder fs dirPath n
                      = negb (excludePath n) && fi_IsDirectory fi)
      by (unfold folder; by rewrite Hfi).
    destruct (negb (excludePath n) && fi_IsDirectory fi).
    + rewrite decide_True by done. rewrite IH, fmap_cons.
      by rewrite <- (assoc_L (++)).
    + rewrite decide_False by (rewrite Hfolder; done). apply IH.
Qed.

Lemma populateLoop_calls fs dirPath names calls :
  ∃ added, (populateLoop fs dirPath names calls).1 = calls ++ (ChildrenAdd <$> added).
Proof.
  revert calls. induction names as [|name names IH]; intros calls; simpl.
  - exists []. symmetry. apply app_nil_r.
  - destruct (fs_Stat fs (fs_Join fs [dirPath; name])) as [fi|err].
    + destruct (negb (excludePath name) && fi_IsDirectory fi); [|apply IH].
      destruct (IH (calls ++ [ChildrenAdd name])) as [added ->].
      exists (name :: added). by rewrite <- (assoc_L (++)).
    + exists []. symmetry. apply app_nil_r.
Qed.

End populate_facts.

(** X23: where the directory opens, its names are read and every one of
    them can be stat'ed, populateTreeViewItem returns after these calls:
    suspend the tree view, clear the children of the item, add a child for
    every name, in the order of the listing, that is not left out and is a
    directory, and lift the suspension. *)
Theorem populateTreeViewItem_adds_folders (fs : filebrowser.FileSystem)
    (parent : filebrowser.TreeViewItem) (names : list gostring) :
  let dirPath := filebrowser.pathForTreeViewItem fs (Some parent) in
  filebrowser.fs_Open fs dirPath = None →
  filebrowser.fs_Readdirnames fs dirPath = (names, None) →
  Forall (λ name, ∃ fi, filebrowser.fs_Stat fs
                          (filebrowser.fs_Join fs [dirPath; name]) = inl fi)
    names →
  filebrowser.populateTreeViewItem fs parent
  = ([filebrowser.SetSuspended true; filebrowser.ChildrenClear]
     ++ (filebrowser.ChildrenAdd
           <$> filter (λ name, filebrowser.folder fs dirPath name = true) names)
     ++ [filebrowser.SetSuspended false],
     filebrowser.Normal).
Proof.
  intros dirPath Hopen Hnames Hstat. unfold filebrowser.populateTreeViewItem.
  fold dirPath. rewrite Hopen, Hnames.
  rewrite populateLoop_all_stat by done. by rewrite <- (assoc_L (++)).
Qed.

Lemma populateTreeViewItem_adds_folders_witness :
  filebrowser.populateTreeViewItem
    (filebrowser.mkFileSystem
       (filebrowser.fs_Open filebrowser.sampleFS)
       (λ _, ([("a.txt" : gostring); ("docs" : gostring)], None))
       (filebrowser.fs_Stat filebrowser.sampleFS)
       (filebrowser.fs_Join filebrowser.sampleFS))
    (filebrowser.mkTreeViewItem "C:" None)
  = ([filebrowser.SetSuspended true; filebrowser.ChildrenClear]
     ++ (filebrowser.ChildrenAdd
           <$> filter (λ name,
                         filebrowser.folder
                           (filebrowser.mkFileSystem
                              (filebrowser.fs_Open filebrowser.sampleFS)
                              (λ _, ([("a.txt" : gostring); ("docs" : gostring)], None))
                              (filebrowser.fs_Stat filebrowser.sampleFS)
                              (filebrowser.fs_Join filebrowser.sampleFS))
                           (filebrowser.pathForTreeViewItem
                              (filebrowser.mkFileSystem
                                 (filebrowser.fs_Open filebrowser.sampleFS)
                                 (λ _, ([("a.txt" : gostring); ("docs" : gostring)], None))
                                 (filebrowser.fs_Stat filebrowser.sampleFS)
                                 (filebrowser.fs_Join filebrowser.sampleFS))
                              (Some (filebrowser.mkTreeViewItem "C:" None)))
                           name = true)
                 [("a.txt" : gostring); ("docs" : gostring)])
     ++ [filebrowser.SetSuspended false],
     filebrowser.Normal).
Proof.
  apply populateTreeViewItem_adds_folders.
  - reflexivity.
  - reflexivity.
  - repeat constructor; eexists; vm_compute; reflexivity.
Defined.

(** X24: where the directory opens and its names are read,
    populateTreeViewItem panics with the error of the first name that cannot
    be stat'ed, having added the directories before it; the name is stat'ed
    before it is looked at, so this holds of a name that is left out as well,
    and the suspension of the tree view is lifted all the same. *)
Theorem populateTreeViewItem_panics_on_Stat (fs : filebrowser.FileSystem)
    (parent : filebrowser.TreeViewItem) (before : list gostring)
    (name : gostring) (after : list gostring) (err : Error) :
  let dirPath := filebrowser.pathForTreeViewItem fs (Some parent) in
  filebrowser.fs_Open fs dirPath = None →
  filebrowser.fs_Readdirnames fs dirPath = (before ++ name :: after, None) →
  Forall (λ name, ∃ fi, filebrowser.fs_Stat fs
                          (filebrowser.fs_Join fs [dirPath; name]) = inl fi)
    before →
  filebrowser.fs_Stat fs (filebrowser.fs_Join fs [dirPath; name]) = inr err →
  filebrowser.populateTreeViewItem fs parent
  = ([filebrowser.SetSuspended true; filebrowser.ChildrenClear]
     ++ (filebrowser.ChildrenAdd
           <$> filter (λ name, filebrowser.folder fs dirPath name = true) before)
     ++ [filebrowser.SetSuspended false],
     filebrowser.PanicWith err).
Proof.
  intros dirPath Hopen Hnames Hstat Herr. unfold filebrowser.populateTreeViewItem.
  fold dirPath. rewrite Hopen, Hnames.
  rewrite (populateLoop_stat_failure fs dirPath before name after _ err) by done.
  by rewrite <- (assoc_L (++)).
Qed.

Lemma populateTreeViewItem_panics_on_Stat_witness :
  filebrowser.excludePath "System Volume Information" = true
  ∧ filebrowser.populateTreeViewItem filebrowser.sampleFS
      (filebrowser.mkTreeViewItem "C:" None)
    = ([filebrowser.SetSuspended true; filebrowser.ChildrenClear]
       ++ (filebrowser.ChildrenAdd
             <$> filter (λ name,
                           filebrowser.folder filebrowser.sampleFS
                             (filebrowser.pathForTreeViewItem filebrowser.sampleFS
                                (Some (filebrowser.mkTreeViewItem "C:" None)))
                             name = true)
                   [("a.txt" : gostring)])
       ++ [filebrowser.SetSuspended false],
       filebrowser.PanicWith EACCES).
Proof.
  split; [reflexivity|].
  apply (populateTreeViewItem_panics_on_Stat filebrowser.sampleFS
           (filebrowser.mkTreeViewItem "C:" None)
           [("a.txt" : gostring)] "System Volume Information"
           [("docs" : gostring); ("gone" : gostring)] EACCES).
  - reflexivity.
  - reflexivity.
  - repeat constructor; eexists; vm_compute; reflexivity.
  - vm_compute. reflexivity.
Defined.

(** X25: on every way out of populateTreeViewItem, a panic included, the
    tree view is suspended first, the children of the item are cleared next
    and the suspension is lifted last; in between children are added or one
    error is shown, and nothing else is called. *)
Theorem populateTreeViewItem_brackets (fs : filebrowser.FileSystem)
    (parent : filebrowser.TreeViewItem) :
  ∃ middle,
    (filebrowser.populateTreeViewItem fs parent).1
    = [filebrowser.SetSuspended true; filebrowser.ChildrenClear]
      ++ middle ++ [filebrowser.SetSuspended false]
    ∧ ((∃ added, middle = filebrowser.ChildrenAdd <$> added)
       ∨ (∃ err, middle = [filebrowser.MsgBox "Error" err]
                 ∧ filebrowser.populateTreeViewItem fs parent
                   = ([filebrowser.SetSuspended true; filebrowser.ChildrenClear;
                       filebrowser.MsgBox "Error" err;
                       filebrowser.SetSuspended false],
                      filebrowser.Normal))).
Proof.
  unfold filebrowser.populateTreeViewItem.
  set (dirPath := filebrowser.pathForTreeViewItem fs (Some parent)).
  destruct (filebrowser.fs_Open fs dirPath) as [err|].
  - exists [filebrowser.MsgBox "Error" err]. split; [done|]. right. by exists err.
  - destruct (filebrowser.fs_Readdirnames fs dirPath) as [names [err|]].
    + exists []. split; [done|]. left. by exists [].
    + destruct (populateLoop_calls fs dirPath names
                  [filebrowser.SetSuspended true; filebrowser.ChildrenClear])
        as [added Hcalls].
      destruct (filebrowser.populateLoop fs dirPath names _) as [calls exit].
      simpl in Hcalls. subst calls. exists (filebrowser.ChildrenAdd <$> added).
      split; [done|]. left. by exists added.
Qed.
